(** * Real-NVP coupling layers of nf-jax-sap, in exact arithmetic

    A shallow embedding of the notebook [nf-jax-sap.ipynb]: the coupling
    layer ([nvp_forward], [nvp_inverse]), the chain built by
    [init_nvp_chain], the chain log-density [log_prob_nvp_chain], the base
    density [log_prob_n01] and the training [loss].

    Floating-point numbers are read as real numbers ([R]); a batch is a
    two-dimensional array of reals with an explicit shape; a Python
    exception of any class is the [None] of the [option] monad. *)

From Stdlib Require Import Reals Lra Lia List Bool Arith ZArith.
Import ListNotations.

Open Scope R_scope.

(** ** Exceptions: the option monad *)

Definition bind {A B : Type} (m : option A) (k : A -> option B) : option B :=
  match m with
  | Some a => k a
  | None => None
  end.

Notation "x <- m ;; k" := (bind m (fun x => k))
  (at level 61, m at next level, right associativity).
Notation "' pat <- m ;; k" := (bind m (fun x => match x with pat => k end))
  (at level 61, pat pattern, m at next level, right associativity).

(** ** Arrays *)

(** A one-dimensional array, shape [(length v,)]. *)
Definition vec := list R.

(** A two-dimensional array of shape [(nrows, width)], stored by rows.  The
    width is kept apart from the rows so that an empty batch still has a
    last dimension, as [x.shape[-1]] needs. *)
Record ndarray : Type := mk_array { width : nat; rows : list (list R) }.

Definition nrows (a : ndarray) : nat := length (rows a).

Definition shape (a : ndarray) : nat * nat := (nrows a, width a).

(** Rectangular: every row has [width] entries. *)
Definition wf (a : ndarray) : Prop :=
  Forall (fun r => length r = width a) (rows a).

Fixpoint zip_with {A B C : Type} (f : A -> B -> C) (l : list A) (m : list B)
  : list C :=
  match l, m with
  | a :: l', b :: m' => f a b :: zip_with f l' m'
  | _, _ => []
  end.

(** [x[:, :d]] and [x[:, d:]]. *)
Definition cols_to (d : nat) (a : ndarray) : ndarray :=
  {| width := Nat.min d (width a); rows := map (firstn d) (rows a) |}.

Definition cols_from (d : nat) (a : ndarray) : ndarray :=
  {| width := width a - d; rows := map (skipn d) (rows a) |}.

(** The last [d] columns. *)
Definition last_cols (d : nat) (a : ndarray) : ndarray :=
  cols_from (width a - d) a.

(** Element-wise application of a unary function ([np.exp], unary minus). *)
Definition map_arr (f : R -> R) (a : ndarray) : ndarray :=
  {| width := width a; rows := map (map f) (rows a) |}.

(** NumPy's broadcasting rule for one dimension: equal extents, or one of
    them is 1. *)
Definition broadcast_dim (n m : nat) : option nat :=
  if Nat.eqb n m then Some n
  else if Nat.eqb n 1 then Some m
  else if Nat.eqb m 1 then Some n
  else None.

(** An extent [m] broadcasts to the extent [n]. *)
Definition fits (n m : nat) : Prop := m = n \/ m = 1%nat.

(** Stretching a dimension of extent 1 to extent [n]. *)
Definition stretch {A : Type} (n : nat) (l : list A) : list A :=
  match l with
  | [a] => repeat a n
  | _ => l
  end.

Definition broadcast_to (n w : nat) (a : ndarray) : ndarray :=
  {| width := w; rows := stretch n (map (stretch w) (rows a)) |}.

(** Element-wise binary operation on two arrays of one shape. *)
Definition zip_arr (f : R -> R -> R) (a b : ndarray) : ndarray :=
  {| width := width a; rows := zip_with (zip_with f) (rows a) (rows b) |}.

(** Element-wise binary operation with broadcasting; raises when the shapes
    are incompatible. *)
Definition broadcast2 (f : R -> R -> R) (a b : ndarray) : option ndarray :=
  n <- broadcast_dim (nrows a) (nrows b) ;;
  w <- broadcast_dim (width a) (width b) ;;
  Some (zip_arr f (broadcast_to n w a) (broadcast_to n w b)).

Definition np_add : ndarray -> ndarray -> option ndarray := broadcast2 Rplus.
Definition np_sub : ndarray -> ndarray -> option ndarray := broadcast2 Rminus.
Definition np_mul : ndarray -> ndarray -> option ndarray := broadcast2 Rmult.
Definition np_exp : ndarray -> ndarray := map_arr exp.
Definition np_neg : ndarray -> ndarray := map_arr Ropp.

(** [np.concatenate([a, b], axis=-1)]: the row counts must agree. *)
Definition concatenate (a b : ndarray) : option ndarray :=
  if Nat.eqb (nrows a) (nrows b)
  then Some {| width := width a + width b;
               rows := zip_with (@app R) (rows a) (rows b) |}
  else None.

(** [np.split(s, 2, axis=1)]: two equal halves; raises when the width is
    odd. *)
Definition split2 (s : ndarray) : option (ndarray * ndarray) :=
  if Nat.even (width s)
  then Some (cols_to (width s / 2) s, cols_from (width s / 2) s)
  else None.

Definition Rsum (l : list R) : R := fold_right Rplus 0 l.

(** [np.sum(a, axis=-1)]: one sum per row. *)
Definition sum_last (a : ndarray) : vec := map Rsum (rows a).

(** Addition of one-dimensional arrays, with broadcasting. *)
Definition vadd (a b : vec) : option vec :=
  n <- broadcast_dim (length a) (length b) ;;
  Some (zip_with Rplus (stretch n a) (stretch n b)).

Definition vneg (a : vec) : vec := map Ropp a.

(** [np.mean] of a one-dimensional array.  On an empty array NumPy gives
    nan; here the quotient by [INR 0] is whatever [/ 0] is in [R]. *)
Definition np_mean (a : vec) : R := Rsum a / INR (length a).

(** ** Parameters: pytrees *)

(** A pytree of arrays: lists and tuples are nodes, arrays are leaves.  A
    leaf holds the entries of its array in row-major order. *)
#[warnings="-register-all"]
Inductive pytree : Type :=
| Leaf (a : list R)
| Node (children : list pytree).

(** [tree_flatten]: the leaves, left to right. *)
Fixpoint tree_flatten (t : pytree) : list (list R) :=
  match t with
  | Leaf a => [a]
  | Node children => flat_map tree_flatten children
  end.

(** [np.vdot(x, x)]. *)
Definition vdot (a b : list R) : R := Rsum (zip_with Rmult a b).

(** [optimizers.l2_norm] of the JAX library:
    [np.sqrt(sum(np.vdot(x, x) for x in leaves))]. *)
Definition l2_norm (t : pytree) : R :=
  sqrt (fold_left Rplus (map (fun x => vdot x x) (tree_flatten t)) 0).

(** The squared L2 norm of a pytree: the sum of the squares of all the
    entries of all its leaves. *)
Fixpoint sum_squares (t : pytree) : R :=
  match t with
  | Leaf a => Rsum (map (fun v => v * v) a)
  | Node children => Rsum (map sum_squares children)
  end.

(** ** The coupling layer *)

(** A conditioner: from parameters and the unchanged half to
    [(shift, log_scale)]. *)
Definition conditioner : Type :=
  pytree -> ndarray -> option (ndarray * ndarray).

Definition nvp_forward (net_params : pytree)
    (shift_and_log_scale_fn : conditioner) (x : ndarray) (flip : bool)
  : option ndarray :=
  let d := (width x / 2)%nat in
  let '(x1, x2) := (cols_to d x, cols_from d x) in
  let '(x1, x2) := if flip then (x2, x1) else (x1, x2) in
  '(shift, log_scale) <- shift_and_log_scale_fn net_params x1 ;;
  t <- np_mul x2 (np_exp log_scale) ;;
  y2 <- np_add t shift ;;
  let '(x1, y2) := if flip then (y2, x1) else (x1, y2) in
  concatenate x1 y2.

Definition nvp_inverse (net_params : pytree)
    (shift_and_log_scale_fn : conditioner) (y : ndarray) (flip : bool)
  : option (ndarray * ndarray) :=
  let d := (width y / 2)%nat in
  let '(y1, y2) := (cols_to d y, cols_from d y) in
  let '(y1, y2) := if flip then (y2, y1) else (y1, y2) in
  '(shift, log_scale) <- shift_and_log_scale_fn net_params y1 ;;
  t <- np_sub y2 shift ;;
  x2 <- np_mul t (np_exp (np_neg log_scale)) ;;
  let '(y1, x2) := if flip then (x2, y1) else (y1, x2) in
  x <- concatenate y1 x2 ;;
  Some (x, log_scale).

(** The half of [x] that a layer hands to its conditioner and passes through,
    and the half that it transforms. *)
Definition unchanged_half (flip : bool) (x : ndarray) : ndarray :=
  if flip then cols_from (width x / 2) x else cols_to (width x / 2) x.

Definition transformed_half (flip : bool) (x : ndarray) : ndarray :=
  if flip then cols_to (width x / 2) x else cols_from (width x / 2) x.

(** The shape of [a] broadcasts to the shape of [target]. *)
Definition broadcasts_to (a target : ndarray) : Prop :=
  fits (nrows target) (nrows a) /\ fits (width target) (width a).

(** A conditioner returns rectangular arrays on rectangular input. *)
Definition cond_wf (fn : conditioner) : Prop :=
  forall p a shift log_scale,
    wf a -> fn p a = Some (shift, log_scale) -> wf shift /\ wf log_scale.

(** ** Log-density of one layer and of a chain *)

(** A log-density function: one value per row of the batch. *)
Definition log_prob_fn_t : Type := ndarray -> option vec.

(** A layer configuration: the conditioner and the flip flag. *)
Definition config : Type := (conditioner * bool)%type.

Definition log_prob_nvp (net_params : pytree)
    (shift_and_log_scale_fn : conditioner) (base_log_prob_fn : log_prob_fn_t)
    (y : ndarray) (flip : bool) : option vec :=
  '(x, log_scale) <- nvp_inverse net_params shift_and_log_scale_fn y flip ;;
  let ildj := vneg (sum_last log_scale) in
  b <- base_log_prob_fn x ;;
  vadd b ildj.

Definition make_log_prob_fn (p : pytree) (log_prob_fn : log_prob_fn_t)
    (cfg : config) : log_prob_fn_t :=
  let '(shift_and_log_scale_fn, flip) := cfg in
  fun x => log_prob_nvp p shift_and_log_scale_fn log_prob_fn x flip.

(** One pass of the loop of [log_prob_nvp_chain]: [log_prob_fn] is rebound
    to a closure over its previous value. *)
Definition chain_step (log_prob_fn : log_prob_fn_t)
    (layer : pytree * config) : log_prob_fn_t :=
  let '(p, cfg) := layer in make_log_prob_fn p log_prob_fn cfg.

Definition log_prob_nvp_chain (ps : list pytree) (configs : list config)
    (base_log_prob_fn : log_prob_fn_t) (y : ndarray) : option vec :=
  let log_prob_fn :=
    fold_left chain_step (combine ps configs) base_log_prob_fn in
  log_prob_fn y.

(** [sample_nvp_chain] from the point where the base sample [x] is drawn:
    the forward maps of the layers, in the order of the list. *)
Definition forward_step (acc : option ndarray) (layer : pytree * config)
  : option ndarray :=
  let '(p, (shift_and_log_scale_fn, flip)) := layer in
  x <- acc ;; nvp_forward p shift_and_log_scale_fn x flip.

Definition forward_chain (ps : list pytree) (configs : list config)
    (x : ndarray) : option ndarray :=
  fold_left forward_step (combine ps configs) (Some x).

(** A run of the forward maps of a list of layers from [x] to [y] in which
    every layer returns a batch of the shape of its input. *)
Inductive runs_forward : list (pytree * config) -> ndarray -> ndarray -> Prop :=
| runs_nil (x : ndarray) : runs_forward [] x x
| runs_cons (p : pytree) (fn : conditioner) (flip : bool)
    (rest : list (pytree * config)) (x x1 y : ndarray) :
    nvp_forward p fn x flip = Some x1 ->
    shape x1 = shape x ->
    runs_forward rest x1 y ->
    runs_forward ((p, (fn, flip)) :: rest) x y.

(** The evaluation that the specification describes: the layers of a list
    are inverted one after the other, head first, the terms
    [ildj = -sum(log_scale)] are accumulated into a total that starts at 0,
    and the base log-density of the fully inverted batch is added to the
    total. *)
Fixpoint invert_layers (layers : list (pytree * config)) (y : ndarray)
    (total : vec) : option (ndarray * vec) :=
  match layers with
  | [] => Some (y, total)
  | (p, (shift_and_log_scale_fn, flip)) :: rest =>
      '(x, log_scale) <- nvp_inverse p shift_and_log_scale_fn y flip ;;
      let ildj := vneg (sum_last log_scale) in
      total' <- vadd total ildj ;;
      invert_layers rest x total'
  end.

Definition log_prob_by_inversion (layers : list (pytree * config))
    (base_log_prob_fn : log_prob_fn_t) (y : ndarray) : option vec :=
  '(x, total) <- invert_layers layers y [0] ;;
  b <- base_log_prob_fn x ;;
  vadd b total.

(** ** The base density *)

(** [log_prob_n01(x, eps=1e-15)]; the argument [eps] is never read. *)
Definition log_prob_n01 (x : ndarray) : vec :=
  sum_last
    (map_arr (fun v => v - ln (sqrt (2 * PI)))
       (map_arr (fun v => v / 2)
          (np_neg (map_arr (fun v => v * v) x)))).

(** The density of the standard normal distribution at [v]. *)
Definition std_normal_pdf (v : R) : R :=
  / sqrt (2 * PI) * exp (- (v * v) / 2).

(** ** Construction of a chain *)

(** [range(n)]. *)
Definition range (n : Z) : list nat := seq 0 (Z.to_nat n).

(** Module-level hyperparameters, the dictionary [hp]. *)
Record hyperparams : Type := mk_hp {
  chains : Z;
  beta : R;
  grad_clip : R;
  epochs : R;
  eta : R;
  hidden : Z
}.

Definition hp : hyperparams :=
  {| chains := 15; beta := 1 / 1000; grad_clip := 1; epochs := 500000;
     eta := 1 / 100000; hidden := 2048 |}.

Section Notebook.

(** The JAX pieces the notebook builds on: the type of random keys, the
    module-level key [rng = random.PRNGKey(0)], and the pair
    [(net_init, net_apply)] that [stax.serial] returns for the network of
    [init_nvp].  Both are pure functions of their arguments. *)
Variable PRNGKey : Type.
Variable rng : PRNGKey.
Variable net_init : PRNGKey -> Z * Z -> (Z * Z) * pytree.
Variable net_apply : pytree -> ndarray -> option ndarray.

Definition shift_and_log_scale_fn : conditioner :=
  fun net_params x1 =>
    s <- net_apply net_params x1 ;;
    split2 s.

Definition init_nvp : pytree * conditioner :=
  let D := 2%Z in
  let in_shape := ((-1)%Z, (D / 2)%Z) in
  let '(out_shape, net_params) := net_init rng in_shape in
  (net_params, shift_and_log_scale_fn).

(** One pass of the loop body on the state [(flip, ps, configs)]. *)
Definition init_nvp_chain_body (st : bool * list pytree * list config)
    (i : nat) : bool * list pytree * list config :=
  let '(flip, ps, configs) := st in
  let '(p, f) := init_nvp in
  (negb flip, ps ++ [p], configs ++ [(f, flip)]).

Definition init_nvp_chain (n : Z) : list pytree * list config :=
  let '(flip, ps, configs) :=
    fold_left init_nvp_chain_body (range n) (false, [], []) in
  (ps, configs).

(** ** The training loss *)

Definition cs : list config := snd (init_nvp_chain (chains hp)).

Definition loss (params : list pytree) (batch : ndarray) : option R :=
  lp <- log_prob_nvp_chain params cs (fun x => Some (log_prob_n01 x)) batch ;;
  Some (- np_mean lp + beta hp * l2_norm (Node params)).

(** The loss that the specification describes, with the penalty
    [beta * ||params||^2]. *)
Definition loss_with_squared_norm (params : list pytree)
    (batch : ndarray) : option R :=
  lp <- log_prob_nvp_chain params cs (fun x => Some (log_prob_n01 x)) batch ;;
  Some (- np_mean lp + beta hp * sum_squares (Node params)).

End Notebook.

Arguments init_nvp {PRNGKey} rng net_init net_apply.
Arguments init_nvp_chain_body {PRNGKey} rng net_init net_apply st i.
Arguments init_nvp_chain {PRNGKey} rng net_init net_apply n.
Arguments cs {PRNGKey} rng net_init net_apply.
Arguments loss {PRNGKey} rng net_init net_apply params batch.
Arguments loss_with_squared_norm {PRNGKey} rng net_init net_apply params batch.


(** ** Concrete layers and batches used in the examples *)

(** A conditioner that shifts by the unchanged half and scales by its
    exponential: [shift = log_scale = x1]. *)
Definition echo_conditioner : conditioner :=
  fun _ x1 => Some (x1, x1).

(** A conditioner that shifts by the unchanged half and does not scale:
    [shift = x1], [log_scale = 0]. *)
Definition shift_conditioner : conditioner :=
  fun _ x1 => Some (x1, map_arr (fun _ => 0) x1).

(** One row, two columns. *)
Definition batch_1_2 : ndarray := {| width := 2; rows := [[1; 2]] |}.

(** One row, three columns: an odd width, and not the [D = 2] of
    [init_nvp]. *)
Definition batch_1_3 : ndarray := {| width := 3; rows := [[1; 2; 3]] |}.

(** A network in the place of the one [stax.serial] builds in [init_nvp],
    with all weights zero: like a [Dense] layer initialised for
    [in_shape = (-1, 1)] it accepts only batches of width 1, and like the
    final [Dense(D)] it returns [D = 2] columns. *)
Definition zero_net_apply : pytree -> ndarray -> option ndarray :=
  fun _ x =>
    if Nat.eqb (width x) 1
    then Some {| width := 2; rows := map (fun _ => [0; 0]) (rows x) |}
    else None.

(** A chain of two layers, the second one flipped as [init_nvp_chain] does,
    both with [shift_conditioner]; and a batch of one row. *)
Definition two_layer_ps : list pytree := [Leaf []; Leaf []].

Definition two_layer_configs : list config :=
  [(shift_conditioner, false); (shift_conditioner, true)].

Definition batch_1_0 : ndarray := {| width := 2; rows := [[1; 0]] |}.

(** An initialiser to go with [zero_net_apply]: it reads no randomness and
    returns a pytree without leaves. *)
Definition zero_net_init : unit -> Z * Z -> (Z * Z) * pytree :=
  fun _ in_shape => ((fst in_shape, 2%Z), Node []).

(** An initialiser that records the key it was given. *)
Definition key_net_init : R -> Z * Z -> (Z * Z) * pytree :=
  fun key in_shape => ((fst in_shape, 2%Z), Leaf [key]).

(** ** Sampling *)

(** A base sampler: from the number of rows to a batch.  [sample_n01] is
    [random.normal] on the module-level key. *)
Definition base_sample_fn_t : Type := Z -> option ndarray.

Definition sample_nvp (net_params : pytree)
    (shift_and_log_scale_fn : conditioner) (base_sample_fn : base_sample_fn_t)
    (N : Z) (flip : bool) : option ndarray :=
  x <- base_sample_fn N ;;
  nvp_forward net_params shift_and_log_scale_fn x flip.





(** One row of one entry, and one row of two zeros. *)
Definition batch_1_1 : ndarray := {| width := 1; rows := [[5]] |}.

Definition zeros_1_2 : ndarray := {| width := 2; rows := [[0; 0]] |}.

(** ** The scatter plot of an image *)

(** A pixel is the list of its channel values; an image of shape
    [(height, img_width, channels)] is stored by rows. *)
Definition pixel : Type := list Z.

Record image : Type := mk_image {
  img_width : nat;
  img_rows : list (list pixel)
}.

Definition img_height (img : image) : nat := length (img_rows img).

Definition img_wf (img : image) : Prop :=
  Forall (fun r => length r = img_width img) (img_rows img).

(** [range(start, stop, step)]: raises for a step of zero. *)
Definition py_range (start stop step : Z) : option (list Z) :=
  if (step =? 0)%Z then None
  else
    let len :=
      if (0 <? step)%Z then ((stop - start + step - 1) / step)%Z
      else ((start - stop - step - 1) / (- step))%Z in
    Some (map (fun k => (start + Z.of_nat k * step)%Z)
              (seq 0 (Z.to_nat len))).

(** Indexing with a Python integer: a negative index counts from the end,
    an index out of range raises. *)
Definition py_index {A : Type} (l : list A) (i : Z) : option A :=
  let n := Z.of_nat (length l) in
  if ((0 <=? i) && (i <? n))%Z then nth_error l (Z.to_nat i)
  else if ((- n <=? i) && (i <? 0))%Z then nth_error l (Z.to_nat (i + n))
  else None.

(** [img[r, j]]. *)
Definition img_at (img : image) (r j : Z) : option pixel :=
  row <- py_index (img_rows img) r ;;
  py_index row j.

(** [list(px) == hit]. *)
Definition pixel_eqb (px hit : pixel) : bool :=
  if list_eq_dec Z.eq_dec px hit then true else false.

(** The inner loop, over the columns [js] of the row that [i] selects. *)
Definition scatter_row (img : image) (hit : pixel) (i : Z)
    (X : list (list Z)) (js : list Z) : option (list (list Z)) :=
  fold_left
    (fun acc j =>
       X <- acc ;;
       px <- img_at img (Z.of_nat (img_height img) - (i + 1)) j ;;
       Some (if pixel_eqb px hit then X ++ [[j; i]] else X))
    js (Some X).

(** [convert_img_to_scatter]; the result is the list [X] that the function
    hands to [np.array]. *)
Definition convert_img_to_scatter (img : image) (stride : Z) (hit : pixel)
  : option (list (list Z)) :=
  rows_i <- py_range 0 (Z.of_nat (img_height img) - 50) stride ;;
  fold_left
    (fun acc i =>
       X <- acc ;;
       js <- py_range 0 (Z.of_nat (img_width img)) stride ;;
       scatter_row img hit i X js)
    rows_i (Some []).

(** Whether the pixel that [(j, i)] selects is [hit]. *)
Definition is_hit (img : image) (hit : pixel) (i j : Z) : bool :=
  match img_at img (Z.of_nat (img_height img) - (i + 1)) j with
  | Some px => pixel_eqb px hit
  | None => false
  end.

(** A small image for the examples: 52 rows of 2 pixels, all black but
    the pixel in the lower left corner. *)
Definition blue : pixel := [25; 119; 209]%Z.

Definition black : pixel := [0; 0; 0]%Z.

Definition corner_image : image :=
  {| img_width := 2;
     img_rows := repeat [black; black] 51 ++ [[blue; black]] |}.

(** The same scene under another sky: the rows at the top differ. *)
Definition corner_image_blue_sky : image :=
  {| img_width := 2;
     img_rows := repeat [blue; blue] 50 ++ [[black; black]; [blue; black]] |}.

(** ** The animation *)

Module Animation.

(** One pass of the loop that collects the frames: the state is the
    current batch [x] and the list [values]. *)
Definition values_step (st : option (ndarray * list ndarray))
    (layer : pytree * config) : option (ndarray * list ndarray) :=
  let '(p, (shift_log_scale_fn, flip)) := layer in
  '(x, values) <- st ;;
  x' <- nvp_forward p shift_log_scale_fn x flip ;;
  Some (x', values ++ [x']).

(** [values = [x]], the loop over [zip(ps, cs)], and then
    [values = [values[0]] * 5 + values + [values[-1]] * 5]. *)
Definition values_of (ps : list pytree) (cs : list config) (x : ndarray)
  : option (list ndarray) :=
  '(x', values) <- fold_left values_step (combine ps cs) (Some (x, [x])) ;;
  first <- py_index values 0 ;;
  final <- py_index values (-1) ;;
  Some (repeat first 5 ++ values ++ repeat final 5).

Definition n : Z := 12.

(** A scalar times an array. *)
Definition scale (c : R) (a : ndarray) : ndarray := map_arr (Rmult c) a.

(** [animate(i)]; the result is the array handed to [paths.set_offsets]. *)
Definition animate (values : list ndarray) (i : Z) : option ndarray :=
  let l := (i / n)%Z in
  let t := IZR (i mod n) / IZR n in
  a <- py_index values l ;;
  b <- py_index values (l + 1) ;;
  np_add (scale (1 - t) a) (scale t b).

(** [frames = n * (len(cs) + 5 + 5)]. *)
Definition frames (cs : list config) : Z :=
  (n * (Z.of_nat (length cs) + 5 + 5))%Z.

End Animation.

(** The batch [batch_1_2] after one layer with [echo_conditioner]. *)
Definition sample_1_2 : ndarray :=
  {| width := 2; rows := [[1; 2 * exp 1 + 1]] |}.

(** ** One training step *)

(** [tree_map] of a function on arrays. *)
Fixpoint tree_map (f : list R -> list R) (t : pytree) : pytree :=
  match t with
  | Leaf a => Leaf (f a)
  | Node children => Node (map (tree_map f) children)
  end.

(** [optimizers.clip_grads] of the JAX library:
    [norm = l2_norm(grad_tree)], and every leaf [g] becomes
    [np.where(norm < max_norm, g, g * (max_norm / norm))]. *)
Definition clip_grads (grad_tree : pytree) (max_norm : R) : pytree :=
  let norm := l2_norm grad_tree in
  let normalize := fun g : list R =>
    if Rlt_dec norm max_norm then g
    else map (fun v => v * (max_norm / norm)) g in
  tree_map normalize grad_tree.

Section Training.

(** The notebook's network and key, as before; the optimizer returned by
    [optimizers.adam], of which only [get_params] and [opt_update] are
    used; and [grad(loss)], the gradient of the loss by automatic
    differentiation. *)
Variable PRNGKey : Type.
Variable rng : PRNGKey.
Variable net_init : PRNGKey -> Z * Z -> (Z * Z) * pytree.
Variable net_apply : pytree -> ndarray -> option ndarray.
Variable opt_state_t : Type.
Variable get_params : opt_state_t -> list pytree.
Variable opt_update : Z -> pytree -> opt_state_t -> opt_state_t.
Variable grad_loss : list pytree -> ndarray -> option pytree.

Definition step (i : Z) (opt_state : opt_state_t) (batch : ndarray)
  : option (opt_state_t * R) :=
  let params := get_params opt_state in
  g <- grad_loss params batch ;;
  let g := clip_grads g (grad_clip hp) in
  l <- loss rng net_init net_apply params batch ;;
  Some (opt_update i g opt_state, l).

End Training.

Arguments step {PRNGKey} rng net_init net_apply {opt_state_t}
  get_params opt_update grad_loss i opt_state batch.

(** A stand-in for the optimizer and for [grad(loss)] in the examples: the
    state is the list of parameters, the update leaves it alone, and the
    gradient is a constant tree of norm 5. *)
Definition id_get_params : list pytree -> list pytree := fun s => s.

Definition null_opt_update : Z -> pytree -> list pytree -> list pytree :=
  fun _ _ s => s.

Definition const_grad_loss : list pytree -> ndarray -> option pytree :=
  fun _ _ => Some (Node [Leaf [3; 4]]).

Definition example_loss_value : R :=
  match loss tt zero_net_init zero_net_apply [Leaf [2]] batch_1_0 with
  | Some l => l
  | None => 0
  end.
(** * Properties *)

(** ** The error monad *)

Lemma bind_Some {A B : Type} (m : option A) (k : A -> option B) (b : B) :
  bind m k = Some b -> exists a, m = Some a /\ k a = Some b.
Proof.
  destruct m as [a|]; simpl; intros H; [exists a; auto | discriminate].
Qed.

Ltac inv_bind H :=
  let a := fresh "a" in
  let Ha := fresh "E" in
  apply bind_Some in H; destruct H as (a & Ha & H).

(** ** Lists: zipping and stretching *)

Lemma zip_with_length {A B C : Type} (f : A -> B -> C) (l : list A)
    (m : list B) :
  length (zip_with f l m) = Nat.min (length l) (length m).
Proof.
  revert m; induction l as [|a l IH]; intros [|b m]; simpl; auto.
Qed.

Lemma zip_with_map_r {A B B' C : Type} (f : A -> B -> C) (g : B' -> B)
    (l : list A) (m : list B') :
  zip_with f l (map g m) = zip_with (fun a b => f a (g b)) l m.
Proof.
  revert m; induction l as [|a l IH]; intros [|b m]; simpl; auto.
  now rewrite IH.
Qed.

Lemma zip_with_app_firstn_skipn (d : nat) (rs : list (list R)) :
  zip_with (@app R) (map (firstn d) rs) (map (skipn d) rs) = rs.
Proof.
  induction rs as [|r rs IH]; simpl; auto.
  now rewrite firstn_skipn, IH.
Qed.

Lemma firstn_zip_app (d : nat) (l m : list (list R)) :
  length l = length m ->
  Forall (fun r => length r = d) l ->
  map (firstn d) (zip_with (@app R) l m) = l.
Proof.
  revert m; induction l as [|a l IH]; intros [|b m] Hlen Hl;
    simpl in *; try discriminate; auto.
  inversion Hl as [|? ? Ha Hl']; subst.
  rewrite IH by (auto; lia).
  rewrite firstn_app, Nat.sub_diag, firstn_all; simpl.
  now rewrite app_nil_r.
Qed.

Lemma skipn_zip_app (d : nat) (l m : list (list R)) :
  length l = length m ->
  Forall (fun r => length r = d) l ->
  map (skipn d) (zip_with (@app R) l m) = m.
Proof.
  revert m; induction l as [|a l IH]; intros [|b m] Hlen Hl;
    simpl in *; try discriminate; auto.
  inversion Hl as [|? ? Ha Hl']; subst.
  rewrite IH by (auto; lia).
  rewrite skipn_app, Nat.sub_diag, skipn_all; simpl.
  reflexivity.
Qed.

Lemma stretch_id {A : Type} (n : nat) (l : list A) :
  length l = n -> stretch n l = l.
Proof.
  destruct l as [|a [|b l]]; simpl; intros <-; reflexivity.
Qed.

Lemma stretch_map {A B : Type} (f : A -> B) (n : nat) (l : list A) :
  stretch n (map f l) = map f (stretch n l).
Proof.
  destruct l as [|a [|b l]]; simpl; auto.
  now rewrite map_repeat.
Qed.

Lemma stretch_length {A : Type} (n : nat) (l : list A) :
  fits n (length l) -> length (stretch n l) = n.
Proof.
  destruct l as [|a [|b l]]; simpl; intros [H|H];
    try rewrite repeat_length; auto; try discriminate.
Qed.

Lemma stretch_Forall {A : Type} (P : A -> Prop) (n : nat) (l : list A) :
  Forall P l -> Forall P (stretch n l).
Proof.
  destruct l as [|a [|b l]]; simpl; auto.
  intros H; inversion H; subst.
  apply Forall_forall; intros x Hx.
  apply repeat_spec in Hx; now subst.
Qed.

(** ** The broadcasting rule *)

Lemma broadcast_dim_fits (n m k : nat) :
  broadcast_dim n m = Some k -> fits k n /\ fits k m.
Proof.
  unfold broadcast_dim, fits.
  destruct (Nat.eqb_spec n m); [intros [= <-]; subst; auto|].
  destruct (Nat.eqb_spec n 1); [intros [= <-]; subst; auto|].
  destruct (Nat.eqb_spec m 1); [intros [= <-]; subst; auto|].
  discriminate.
Qed.

Lemma fits_broadcast_dim (n m : nat) :
  fits n m -> broadcast_dim n m = Some n.
Proof.
  unfold broadcast_dim, fits.
  destruct (Nat.eqb_spec n m); auto.
  destruct (Nat.eqb_spec n 1); [intros [H|H]; congruence|].
  destruct (Nat.eqb_spec m 1); auto.
  intros [H|H]; congruence.
Qed.

Lemma broadcast_dim_chain (n a c n1 : nat) :
  broadcast_dim n a = Some n1 -> broadcast_dim n1 c = Some n ->
  n1 = n /\ fits n a /\ fits n c.
Proof.
  intros H1 H2.
  apply broadcast_dim_fits in H1, H2.
  unfold fits in *. intuition (subst; auto; try congruence).
Qed.

(** A column of width 1 is stretched along the last axis; widths 2 and 3 do
    not broadcast; an odd width cannot be split in two. *)
Example np_mul_broadcasts_column :
  np_mul {| width := 2; rows := [[2; 3]] |} {| width := 1; rows := [[10]] |}
  = Some {| width := 2; rows := [[2 * 10; 3 * 10]] |}.
Proof. reflexivity. Qed.

Example np_add_broadcasts_row :
  np_add {| width := 1; rows := [[1]; [2]] |} {| width := 1; rows := [[10]] |}
  = Some {| width := 1; rows := [[1 + 10]; [2 + 10]] |}.
Proof. reflexivity. Qed.

Example np_add_incompatible :
  np_add {| width := 2; rows := [[1; 2]] |}
         {| width := 3; rows := [[1; 2; 3]] |} = None.
Proof. reflexivity. Qed.

Example split2_odd_width :
  split2 {| width := 3; rows := [[1; 2; 3]] |} = None.
Proof. reflexivity. Qed.

(** ** Arrays: shapes and well-formedness *)

Lemma ndarray_eq (a b : ndarray) :
  width a = width b -> rows a = rows b -> a = b.
Proof.
  destruct a, b; simpl; intros -> ->; reflexivity.
Qed.

Lemma wf_cols_to (d : nat) (x : ndarray) :
  wf x -> wf (cols_to d x).
Proof.
  unfold wf, cols_to; simpl; intros H.
  apply Forall_map. eapply Forall_impl; [|exact H].
  simpl; intros r Hr. now rewrite length_firstn, Hr.
Qed.

Lemma wf_cols_from (d : nat) (x : ndarray) :
  wf x -> wf (cols_from d x).
Proof.
  unfold wf, cols_from; simpl; intros H.
  apply Forall_map. eapply Forall_impl; [|exact H].
  simpl; intros r Hr. now rewrite length_skipn, Hr.
Qed.

Lemma wf_map_arr (f : R -> R) (a : ndarray) :
  wf a -> wf (map_arr f a).
Proof.
  unfold wf, map_arr; simpl; intros H.
  apply Forall_map. eapply Forall_impl; [|exact H].
  simpl; intros r Hr. now rewrite length_map.
Qed.

Lemma nrows_cols_to (d : nat) (x : ndarray) : nrows (cols_to d x) = nrows x.
Proof. unfold nrows; simpl; apply length_map. Qed.

Lemma nrows_cols_from (d : nat) (x : ndarray) :
  nrows (cols_from d x) = nrows x.
Proof. unfold nrows; simpl; apply length_map. Qed.


Lemma width_cols_from (d : nat) (x : ndarray) :
  width (cols_from d x) = (width x - d)%nat.
Proof. reflexivity. Qed.

Lemma nrows_map_arr (f : R -> R) (a : ndarray) : nrows (map_arr f a) = nrows a.
Proof. unfold nrows; simpl; apply length_map. Qed.

Lemma concatenate_halves (d : nat) (x : ndarray) :
  (d <= width x)%nat ->
  concatenate (cols_to d x) (cols_from d x) = Some x.
Proof.
  intros Hd. unfold concatenate.
  rewrite nrows_cols_to, nrows_cols_from, Nat.eqb_refl.
  f_equal. apply ndarray_eq; simpl.
  - lia.
  - apply zip_with_app_firstn_skipn.
Qed.

Lemma concatenate_Some (a b y : ndarray) :
  concatenate a b = Some y ->
  nrows a = nrows b /\ width y = (width a + width b)%nat /\
  rows y = zip_with (@app R) (rows a) (rows b).
Proof.
  unfold concatenate.
  destruct (Nat.eqb_spec (nrows a) (nrows b)); [|discriminate].
  intros [= <-]; simpl; auto.
Qed.

Lemma nrows_concatenate (a b y : ndarray) :
  concatenate a b = Some y -> nrows y = nrows a.
Proof.
  intros H. apply concatenate_Some in H as (Hn & _ & Hr).
  unfold nrows in *. rewrite Hr, zip_with_length. lia.
Qed.

Lemma cols_to_concatenate (a b y : ndarray) :
  wf a -> concatenate a b = Some y -> cols_to (width a) y = a.
Proof.
  intros Ha H. apply concatenate_Some in H as (Hn & Hw & Hr).
  apply ndarray_eq; simpl.
  - lia.
  - rewrite Hr. now apply firstn_zip_app.
Qed.

Lemma cols_from_concatenate (a b y : ndarray) :
  wf a -> concatenate a b = Some y -> cols_from (width a) y = b.
Proof.
  intros Ha H. apply concatenate_Some in H as (Hn & Hw & Hr).
  apply ndarray_eq; simpl.
  - lia.
  - rewrite Hr. now apply skipn_zip_app.
Qed.

Lemma wf_concatenate (a b y : ndarray) :
  wf a -> wf b -> concatenate a b = Some y -> wf y.
Proof.
  intros Ha Hb H. apply concatenate_Some in H as (Hn & Hw & Hr).
  unfold wf in *. rewrite Hr, Hw.
  unfold nrows in Hn.
  revert Ha Hb Hn. generalize (width a) (width b) (rows a) (rows b).
  intros wa wb ra. induction ra as [|r ra IH]; intros [|s rb] Ha Hb Hn;
    simpl in *; try discriminate; constructor.
  - inversion Ha; inversion Hb; subst. rewrite length_app. lia.
  - inversion Ha; inversion Hb; subst. apply IH; auto.
Qed.

(** ** Broadcasting of arrays *)

Lemma broadcast_to_id (n w : nat) (a : ndarray) :
  wf a -> nrows a = n -> width a = w -> broadcast_to n w a = a.
Proof.
  intros Ha Hn Hw. apply ndarray_eq; simpl; auto.
  assert (Hm : map (stretch w) (rows a) = rows a).
  { unfold wf in Ha. rewrite Hw in Ha.
    induction (rows a) as [|r rs IH]; simpl; auto.
    inversion Ha; subst. rewrite stretch_id, IH; auto. }
  rewrite Hm. now apply stretch_id.
Qed.

Lemma broadcast_to_map_arr (f : R -> R) (n w : nat) (a : ndarray) :
  broadcast_to n w (map_arr f a) = map_arr f (broadcast_to n w a).
Proof.
  apply ndarray_eq; simpl; auto.
  rewrite <- stretch_map. f_equal.
  rewrite !map_map. apply map_ext. intros r. apply stretch_map.
Qed.

Lemma broadcast_to_shape (n w : nat) (a : ndarray) :
  wf a -> fits n (nrows a) -> fits w (width a) ->
  wf (broadcast_to n w a) /\ nrows (broadcast_to n w a) = n /\
  width (broadcast_to n w a) = w.
Proof.
  intros Ha Hn Hw. repeat split; auto.
  - unfold wf; simpl. apply stretch_Forall, Forall_map.
    eapply Forall_impl; [|exact Ha].
    simpl; intros r Hr. apply stretch_length. now rewrite Hr.
  - unfold nrows; simpl. apply stretch_length. now rewrite length_map.
Qed.

Lemma zip_arr_shape (f : R -> R -> R) (a b : ndarray) :
  wf a -> wf b -> width a = width b -> nrows a = nrows b ->
  wf (zip_arr f a b) /\ nrows (zip_arr f a b) = nrows a /\
  width (zip_arr f a b) = width a.
Proof.
  intros Ha Hb Hw Hn. repeat split; auto.
  - unfold wf in *; simpl. rewrite <- Hw in Hb. unfold nrows in Hn.
    revert Ha Hb Hn. generalize (width a) (rows a) (rows b).
    intros w ra. induction ra as [|r ra IH]; intros [|s rb] Ha Hb Hn;
      simpl in *; try discriminate; constructor;
      inversion Ha; inversion Hb; subst.
    + rewrite zip_with_length. lia.
    + apply IH; auto.
  - unfold nrows in *; simpl. rewrite zip_with_length. lia.
Qed.

Lemma broadcast2_Some (f : R -> R -> R) (a b c : ndarray) :
  wf a -> wf b -> broadcast2 f a b = Some c ->
  wf c /\
  broadcast_dim (nrows a) (nrows b) = Some (nrows c) /\
  broadcast_dim (width a) (width b) = Some (width c) /\
  c = zip_arr f (broadcast_to (nrows c) (width c) a)
                (broadcast_to (nrows c) (width c) b).
Proof.
  intros Ha Hb H. unfold broadcast2 in H.
  inv_bind H. rename a0 into n. inv_bind H. rename a0 into w.
  injection H as <-.
  destruct (broadcast_dim_fits _ _ _ E) as [Hna Hnb].
  destruct (broadcast_dim_fits _ _ _ E0) as [Hwa Hwb].
  destruct (broadcast_to_shape n w a Ha Hna Hwa) as (Wa & Na & Wda).
  destruct (broadcast_to_shape n w b Hb Hnb Hwb) as (Wb & Nb & Wdb).
  destruct (zip_arr_shape f _ _ Wa Wb) as (Wc & Nc & Wdc); try congruence.
  rewrite Nc, Wdc, Na, Wda. auto.
Qed.

Lemma broadcast2_fits (f : R -> R -> R) (a b : ndarray) :
  wf a -> fits (nrows a) (nrows b) -> fits (width a) (width b) ->
  broadcast2 f a b =
  Some (zip_arr f a (broadcast_to (nrows a) (width a) b)).
Proof.
  intros Ha Hn Hw. unfold broadcast2.
  rewrite (fits_broadcast_dim _ _ Hn), (fits_broadcast_dim _ _ Hw); simpl.
  now rewrite broadcast_to_id.
Qed.

(** ** Undoing the affine map element by element *)

Lemma affine_undo (v a b : R) : (v * exp a + b - b) * exp (- a) = v.
Proof.
  replace (v * exp a + b - b) with (v * exp a) by ring.
  rewrite Rmult_assoc, <- exp_plus, Rplus_opp_r, exp_0. ring.
Qed.

Lemma affine_undo_row (r l s : list R) :
  length l = length r -> length s = length r ->
  zip_with Rmult
    (zip_with Rminus (zip_with Rplus (zip_with Rmult r (map exp l)) s) s)
    (map exp (map Ropp l)) = r.
Proof.
  revert l s; induction r as [|v r IH]; intros [|a l] [|b s] Hl Hs;
    simpl in *; try discriminate; auto.
  rewrite affine_undo, IH; auto.
Qed.

Lemma affine_undo_arr (t l s : ndarray) :
  wf t -> wf l -> wf s ->
  shape l = shape t -> shape s = shape t ->
  zip_arr Rmult
    (zip_arr Rminus (zip_arr Rplus (zip_arr Rmult t (np_exp l)) s) s)
    (np_exp (np_neg l)) = t.
Proof.
  unfold shape, nrows, wf. intros Ht Hl Hs [= Hnl Hwl] [= Hns Hws].
  apply ndarray_eq; simpl; auto.
  rewrite Hwl in Hl. rewrite Hws in Hs.
  revert Ht Hl Hs Hnl Hns.
  generalize (width t) (rows t) (rows l) (rows s).
  intros w rt. induction rt as [|r rt IH]; intros [|a rl] [|b rs];
    intros Ht Hl Hs Hnl Hns; simpl in *; try discriminate; auto.
  inversion Ht; inversion Hl; inversion Hs; subst.
  rewrite affine_undo_row, IH; auto; lia.
Qed.

(** The transformed half: [y2 = x2 * exp(log_scale) + shift] is undone by
    [(y2 - shift) * exp(-log_scale)] whenever the forward result kept the
    shape of [x2]. *)
Lemma affine_roundtrip (t ls shift t1 y2 : ndarray) :
  wf t -> wf ls -> wf shift ->
  np_mul t (np_exp ls) = Some t1 ->
  np_add t1 shift = Some y2 ->
  shape y2 = shape t ->
  wf y2 /\ fits (nrows t) (nrows ls) /\
  exists t2, np_sub y2 shift = Some t2 /\
             np_mul t2 (np_exp (np_neg ls)) = Some t.
Proof.
  intros Ht Hls Hsh H1 H2 Hshape.
  unfold shape in Hshape. injection Hshape as Hn Hw.
  assert (Hel : wf (np_exp ls)) by now apply wf_map_arr.
  destruct (broadcast2_Some _ _ _ _ Ht Hel H1) as (Wt1 & Dn1 & Dw1 & Et1).
  destruct (broadcast2_Some _ _ _ _ Wt1 Hsh H2) as (Wy2 & Dn2 & Dw2 & Ey2).
  rewrite Hn in Dn2. rewrite Hw in Dw2.
  destruct (broadcast_dim_chain _ _ _ _ Dn1 Dn2) as (En & Fnl & Fns).
  destruct (broadcast_dim_chain _ _ _ _ Dw1 Dw2) as (Ew & Fwl & Fws).
  unfold np_exp in Fnl, Fwl. rewrite nrows_map_arr in Fnl. simpl in Fwl.
  set (N := nrows t) in *. set (W := width t) in *.
  set (L := broadcast_to N W ls).
  set (S1 := broadcast_to N W shift).
  destruct (broadcast_to_shape N W ls Hls Fnl Fwl) as (WL & NL & WdL).
  destruct (broadcast_to_shape N W shift Hsh Fns Fws) as (WS & NS & WdS).
  fold L in WL, NL, WdL. fold S1 in WS, NS, WdS.
  assert (Et1' : t1 = zip_arr Rmult t (np_exp L)).
  { rewrite Et1, En, Ew. rewrite (broadcast_to_id N W t); auto.
    unfold np_exp. now rewrite broadcast_to_map_arr. }
  assert (Ey2' : y2 = zip_arr Rplus t1 S1).
  { rewrite Ey2 at 1. rewrite Hn, Hw. fold N W.
    rewrite (broadcast_to_id N W t1); auto. }
  split; [exact Wy2|]. split; [exact Fnl|].
  exists (zip_arr Rminus y2 S1). split.
  - unfold np_sub. rewrite broadcast2_fits; auto.
    + now rewrite Hn, Hw.
    + now rewrite Hn.
    + now rewrite Hw.
  - unfold np_mul.
    assert (WM : wf (zip_arr Rminus y2 S1) /\
                 nrows (zip_arr Rminus y2 S1) = N /\
                 width (zip_arr Rminus y2 S1) = W).
    { destruct (zip_arr_shape Rminus y2 S1) as (A & B & C); auto;
        try congruence. repeat split; congruence. }
    destruct WM as (WM & NM & WdM).
    rewrite broadcast2_fits; auto.
    + rewrite NM, WdM. f_equal.
      unfold np_exp, np_neg at 1. rewrite !broadcast_to_map_arr. fold L.
      rewrite Ey2', Et1'.
      apply affine_undo_arr; auto; unfold shape.
      * now rewrite NL, WdL.
      * now rewrite NS, WdS.
    + unfold np_exp, np_neg. rewrite !nrows_map_arr. now rewrite NM.
    + unfold np_exp, np_neg. simpl. simpl in WdM. now rewrite WdM.
Qed.

(** ** One coupling layer *)

Lemma half_le (n : nat) : (n / 2 <= n)%nat.
Proof. apply Nat.Div0.div_le_upper_bound. lia. Qed.

Lemma width_cols_to_half (x : ndarray) :
  width (cols_to (width x / 2) x) = (width x / 2)%nat.
Proof.
  pose proof (half_le (width x)). unfold cols_to; cbn [width]. lia.
Qed.

(** What [nvp_forward] computed when it returned [y]. *)
Lemma nvp_forward_Some (p : pytree) (fn : conditioner) (x y : ndarray)
    (flip : bool) :
  nvp_forward p fn x flip = Some y ->
  exists shift ls t1 y2,
    fn p (unchanged_half flip x) = Some (shift, ls) /\
    np_mul (transformed_half flip x) (np_exp ls) = Some t1 /\
    np_add t1 shift = Some y2 /\
    (if flip then concatenate y2 (unchanged_half flip x)
     else concatenate (unchanged_half flip x) y2) = Some y.
Proof.
  unfold nvp_forward, unchanged_half, transformed_half.
  destruct flip; intros H.
  - inv_bind H. destruct a as [shift ls]. inv_bind H. inv_bind H.
    exists shift, ls, a, a0. auto.
  - inv_bind H. destruct a as [shift ls]. inv_bind H. inv_bind H.
    exists shift, ls, a, a0. auto.
Qed.

Lemma wf_unchanged_half (flip : bool) (x : ndarray) :
  wf x -> wf (unchanged_half flip x).
Proof.
  destruct flip; simpl; [apply wf_cols_from | apply wf_cols_to].
Qed.

Lemma wf_transformed_half (flip : bool) (x : ndarray) :
  wf x -> wf (transformed_half flip x).
Proof.
  destruct flip; simpl; [apply wf_cols_to | apply wf_cols_from].
Qed.

(** The output of [nvp_forward] is rectangular. *)
Lemma nvp_forward_wf (p : pytree) (fn : conditioner) (x y : ndarray)
    (flip : bool) :
  wf x -> cond_wf fn -> nvp_forward p fn x flip = Some y -> wf y.
Proof.
  intros Hx Hfn H.
  apply nvp_forward_Some in H as (shift & ls & t1 & y2 & E & H1 & H2 & H3).
  pose proof (wf_unchanged_half flip x Hx) as Hu.
  pose proof (wf_transformed_half flip x Hx) as Ht.
  destruct (Hfn _ _ _ _ Hu E) as [Hs Hl].
  destruct (broadcast2_Some _ _ _ _ Ht (wf_map_arr exp ls Hl) H1)
    as (Wt1 & _).
  destruct (broadcast2_Some _ _ _ _ Wt1 Hs H2) as (Wy2 & _).
  destruct flip; (eapply wf_concatenate; [| |exact H3]; assumption).
Qed.

(** The core of the round trip: on a forward result of the shape of [x],
    [nvp_inverse] calls the conditioner on the same unchanged half, and
    returns [x] together with that call's [log_scale]. *)
Lemma nvp_inverse_of_forward (p : pytree) (fn : conditioner)
    (x y : ndarray) (flip : bool) :
  wf x -> cond_wf fn ->
  nvp_forward p fn x flip = Some y ->
  shape y = shape x ->
  exists shift ls,
    fn p (unchanged_half flip x) = Some (shift, ls) /\
    fits (nrows x) (nrows ls) /\
    nvp_inverse p fn y flip = Some (x, ls).
Proof.
  intros Hx Hfn H Hshape.
  apply nvp_forward_Some in H as (shift & ls & t1 & y2 & E & H1 & H2 & H3).
  exists shift, ls. split; [exact E|].
  pose proof (wf_unchanged_half flip x Hx) as Hu.
  pose proof (wf_transformed_half flip x Hx) as Ht.
  destruct (Hfn _ _ _ _ Hu E) as [Hs Hl].
  unfold shape in Hshape. injection Hshape as Hn Hw.
  pose proof (half_le (width x)) as Hd.
  unfold nvp_inverse. rewrite Hw.
  destruct flip; unfold unchanged_half, transformed_half in *.
  - (* flip: y = [y2, second half of x] *)
    pose proof (concatenate_Some _ _ _ H3) as (Hn3 & Hw3 & _).
    rewrite width_cols_from in Hw3. rewrite nrows_cols_from in Hn3.
    assert (Hwy2 : width y2 = (width x / 2)%nat) by lia.
    assert (Hsh : shape y2 = shape (cols_to (width x / 2) x)).
    { unfold shape. rewrite nrows_cols_to, width_cols_to_half.
      f_equal; lia. }
    destruct (affine_roundtrip _ _ _ _ _ Ht Hl Hs H1 H2 Hsh)
      as (Wy2 & Fl & t2 & H4 & H5).
    assert (S1 : cols_to (width x / 2) y = y2).
    { rewrite <- Hwy2. now apply cols_to_concatenate with (2 := H3). }
    assert (S2 : cols_from (width x / 2) y = cols_from (width x / 2) x).
    { rewrite <- Hwy2 at 1.
      now apply cols_from_concatenate with (2 := H3). }
    split; [now rewrite nrows_cols_to in Fl|].
    rewrite S1, S2, E; cbn [bind]. rewrite H4; cbn [bind].
    rewrite H5; cbn [bind].
    now rewrite concatenate_halves.
  - (* no flip: y = [first half of x, y2] *)
    pose proof (concatenate_Some _ _ _ H3) as (Hn3 & Hw3 & _).
    rewrite width_cols_to_half in Hw3. rewrite nrows_cols_to in Hn3.
    assert (Hsh : shape y2 = shape (cols_from (width x / 2) x)).
    { unfold shape. rewrite nrows_cols_from, width_cols_from.
      f_equal; lia. }
    destruct (affine_roundtrip _ _ _ _ _ Ht Hl Hs H1 H2 Hsh)
      as (Wy2 & Fl & t2 & H4 & H5).
    assert (S1 : cols_to (width x / 2) y = cols_to (width x / 2) x).
    { rewrite <- (width_cols_to_half x) at 1.
      now apply cols_to_concatenate with (2 := H3). }
    assert (S2 : cols_from (width x / 2) y = y2).
    { rewrite <- (width_cols_to_half x).
      now apply cols_from_concatenate with (2 := H3). }
    split; [now rewrite nrows_cols_from in Fl|].
    rewrite S1, S2, E; cbn [bind]. rewrite H4; cbn [bind].
    rewrite H5; cbn [bind].
    now rewrite concatenate_halves.
Qed.

(** C1.  Round trip of one coupling layer: for every rectangular batch [x],
    every parameter set, every conditioner and either flip flag, when
    [nvp_forward] returns a batch [y] of the shape of [x], the first
    component of [nvp_inverse] on [y] is [x] again, exactly. *)
Theorem nvp_inverse_forward_roundtrip (net_params : pytree)
    (fn : conditioner) (x y : ndarray) (flip : bool) :
  wf x -> cond_wf fn ->
  nvp_forward net_params fn x flip = Some y ->
  shape y = shape x ->
  option_map fst (nvp_inverse net_params fn y flip) = Some x.
Proof.
  intros Hx Hfn H Hshape.
  destruct (nvp_inverse_of_forward _ _ _ _ _ Hx Hfn H Hshape)
    as (shift & ls & _ & _ & Hinv).
  now rewrite Hinv.
Qed.

(** C4.  Consistency of the Jacobian term: the [log_scale] that
    [nvp_inverse] returns on [y = nvp_forward x] is the [log_scale] of the
    conditioner on the unchanged half of [x], the one the forward call
    computed. *)
Theorem nvp_inverse_log_scale_consistent (net_params : pytree)
    (fn : conditioner) (x y : ndarray) (flip : bool) :
  wf x -> cond_wf fn ->
  nvp_forward net_params fn x flip = Some y ->
  shape y = shape x ->
  exists shift log_scale,
    fn net_params (unchanged_half flip x) = Some (shift, log_scale) /\
    option_map snd (nvp_inverse net_params fn y flip) = Some log_scale.
Proof.
  intros Hx Hfn H Hshape.
  destruct (nvp_inverse_of_forward _ _ _ _ _ Hx Hfn H Hshape)
    as (shift & ls & E & _ & Hinv).
  exists shift, ls. split; [exact E|]. now rewrite Hinv.
Qed.

Lemma even_half (n : nat) : Nat.even n = true -> (n - n / 2 = n / 2)%nat.
Proof.
  intros H. apply Nat.even_spec in H as [k ->].
  rewrite Nat.mul_comm, Nat.div_mul by discriminate. lia.
Qed.

(** C5.  The untransformed half passes through: on a batch of even width
    [D], without flip the first [D/2] columns of the output are those of
    [x], and with flip the last [D/2] columns are. *)
Theorem nvp_forward_unchanged_half (net_params : pytree)
    (fn : conditioner) (x y : ndarray) (flip : bool) :
  wf x -> cond_wf fn ->
  Nat.even (width x) = true ->
  nvp_forward net_params fn x flip = Some y ->
  if flip
  then last_cols (width x / 2) y = last_cols (width x / 2) x
  else cols_to (width x / 2) y = cols_to (width x / 2) x.
Proof.
  intros Hx Hfn Hev H.
  apply nvp_forward_Some in H as (shift & ls & t1 & y2 & E & H1 & H2 & H3).
  pose proof (wf_unchanged_half flip x Hx) as Hu.
  pose proof (wf_transformed_half flip x Hx) as Ht.
  destruct (Hfn _ _ _ _ Hu E) as [Hs Hl].
  destruct (broadcast2_Some _ _ _ _ Ht (wf_map_arr exp ls Hl) H1)
    as (Wt1 & _).
  destruct (broadcast2_Some _ _ _ _ Wt1 Hs H2) as (Wy2 & _).
  pose proof (even_half _ Hev) as Hhalf.
  destruct flip; unfold unchanged_half in *.
  - pose proof (concatenate_Some _ _ _ H3) as (_ & Hw3 & _).
    rewrite width_cols_from in Hw3.
    unfold last_cols.
    replace (width y - width x / 2)%nat with (width y2) by lia.
    rewrite Hhalf.
    now apply cols_from_concatenate with (2 := H3).
  - rewrite <- (width_cols_to_half x) at 1.
    now apply cols_to_concatenate with (2 := H3).
Qed.

Lemma echo_conditioner_wf : cond_wf echo_conditioner.
Proof. intros p a s l Ha [= <- <-]. auto. Qed.

Lemma shift_conditioner_wf : cond_wf shift_conditioner.
Proof.
  intros p a s l Ha [= <- <-]. split; [auto | now apply wf_map_arr].
Qed.

Lemma batch_1_2_wf : wf batch_1_2.
Proof. repeat constructor. Qed.

Lemma nvp_inverse_forward_roundtrip_witness :
  option_map fst
    (nvp_inverse (Leaf []) echo_conditioner
       {| width := 2; rows := [[1; 2 * exp 1 + 1]] |} false)
  = Some batch_1_2.
Proof.
  apply (nvp_inverse_forward_roundtrip (Leaf []) echo_conditioner batch_1_2
           {| width := 2; rows := [[1; 2 * exp 1 + 1]] |} false).
  - exact batch_1_2_wf.
  - exact echo_conditioner_wf.
  - reflexivity.
  - reflexivity.
Defined.

Lemma nvp_inverse_log_scale_consistent_witness :
  exists shift log_scale,
    echo_conditioner (Leaf []) (unchanged_half true batch_1_2)
    = Some (shift, log_scale) /\
    option_map snd
      (nvp_inverse (Leaf []) echo_conditioner
         {| width := 2; rows := [[1 * exp 2 + 2; 2]] |} true)
    = Some log_scale.
Proof.
  apply (nvp_inverse_log_scale_consistent (Leaf []) echo_conditioner
           batch_1_2 {| width := 2; rows := [[1 * exp 2 + 2; 2]] |} true).
  - exact batch_1_2_wf.
  - exact echo_conditioner_wf.
  - reflexivity.
  - reflexivity.
Defined.

Lemma nvp_forward_unchanged_half_witness :
  last_cols (2 / 2) {| width := 2; rows := [[1 * exp 2 + 2; 2]] |}
  = last_cols (2 / 2) batch_1_2.
Proof.
  apply (nvp_forward_unchanged_half (Leaf []) echo_conditioner batch_1_2
           {| width := 2; rows := [[1 * exp 2 + 2; 2]] |} true).
  - exact batch_1_2_wf.
  - exact echo_conditioner_wf.
  - reflexivity.
  - reflexivity.
Defined.

(** ** No check of the dimensionality *)

Lemma broadcasts_to_map_arr (f : R -> R) (a t : ndarray) :
  broadcasts_to a t -> broadcasts_to (map_arr f a) t.
Proof.
  unfold broadcasts_to. now rewrite nrows_map_arr.
Qed.

(** An element-wise operation returns, and keeps the shape of its left
    operand, when the right operand broadcasts to it. *)
Lemma broadcast2_returns (f : R -> R -> R) (a b : ndarray) :
  wf a -> wf b -> broadcasts_to b a ->
  exists c, broadcast2 f a b = Some c /\ wf c /\ shape c = shape a.
Proof.
  intros Ha Hb [Hn Hw].
  rewrite broadcast2_fits by auto.
  eexists; split; [reflexivity|].
  destruct (broadcast_to_shape _ _ b Hb Hn Hw) as (Wb & Nb & Wdb).
  destruct (zip_arr_shape f a _ Ha Wb) as (Wc & Nc & Wdc); try congruence.
  split; [exact Wc|]. unfold shape. now rewrite Nc, Wdc.
Qed.

Lemma shape_eq (a b : ndarray) :
  shape a = shape b -> nrows a = nrows b /\ width a = width b.
Proof. unfold shape. intros [= -> ->]. auto. Qed.

Lemma broadcasts_to_shape (a t t' : ndarray) :
  shape t' = shape t -> broadcasts_to a t -> broadcasts_to a t'.
Proof.
  intros H. apply shape_eq in H as [Hn Hw].
  unfold broadcasts_to. now rewrite Hn, Hw.
Qed.

Lemma concatenate_returns (a b : ndarray) :
  nrows a = nrows b ->
  exists y, concatenate a b = Some y /\ nrows y = nrows a /\
            width y = (width a + width b)%nat.
Proof.
  intros H. unfold concatenate. rewrite H, Nat.eqb_refl.
  eexists; split; [reflexivity|]. split; [|reflexivity].
  unfold nrows in *; cbn [rows]. rewrite zip_with_length. lia.
Qed.

Lemma nvp_forward_returns (p : pytree) (fn : conditioner) (x : ndarray)
    (flip : bool) (shift ls : ndarray) :
  wf x ->
  fn p (unchanged_half flip x) = Some (shift, ls) ->
  wf shift -> wf ls ->
  broadcasts_to shift (transformed_half flip x) ->
  broadcasts_to ls (transformed_half flip x) ->
  exists y, nvp_forward p fn x flip = Some y /\ shape y = shape x.
Proof.
  intros Hx E Hs Hl Bs Bl.
  pose proof (wf_transformed_half flip x Hx) as Ht.
  destruct (broadcast2_returns Rmult _ (np_exp ls) Ht
              (wf_map_arr exp ls Hl) (broadcasts_to_map_arr exp _ _ Bl))
    as (t1 & H1 & Wt1 & St1).
  destruct (broadcast2_returns Rplus t1 shift Wt1 Hs
              (broadcasts_to_shape _ _ _ St1 Bs))
    as (y2 & H2 & Wy2 & Sy2).
  rewrite St1 in Sy2. apply shape_eq in Sy2 as [Ny2 Wdy2].
  pose proof (half_le (width x)) as Hd.
  unfold nvp_forward.
  destruct flip; unfold unchanged_half, transformed_half in *;
    rewrite E; cbn [bind]; fold np_mul in H1; rewrite H1; cbn [bind];
    fold np_add in H2; rewrite H2; cbn [bind].
  - rewrite nrows_cols_to in Ny2. rewrite width_cols_to_half in Wdy2.
    destruct (concatenate_returns y2 (cols_from (width x / 2) x))
      as (y & H3 & Ny & Wy); [now rewrite nrows_cols_from|].
    exists y; split; [exact H3|].
    unfold shape. rewrite Ny, Wy, width_cols_from. f_equal; lia.
  - rewrite nrows_cols_from in Ny2. rewrite width_cols_from in Wdy2.
    destruct (concatenate_returns (cols_to (width x / 2) x) y2)
      as (y & H3 & Ny & Wy); [now rewrite nrows_cols_to|].
    exists y; split; [exact H3|].
    unfold shape. rewrite Ny, Wy, width_cols_to_half, nrows_cols_to.
    f_equal; lia.
Qed.

Lemma nvp_inverse_returns (p : pytree) (fn : conditioner) (y : ndarray)
    (flip : bool) (shift ls : ndarray) :
  wf y ->
  fn p (unchanged_half flip y) = Some (shift, ls) ->
  wf shift -> wf ls ->
  broadcasts_to shift (transformed_half flip y) ->
  broadcasts_to ls (transformed_half flip y) ->
  exists x, nvp_inverse p fn y flip = Some (x, ls) /\ shape x = shape y.
Proof.
  intros Hy E Hs Hl Bs Bl.
  pose proof (wf_transformed_half flip y Hy) as Ht.
  destruct (broadcast2_returns Rminus _ shift Ht Hs Bs)
    as (t1 & H1 & Wt1 & St1).
  destruct (broadcast2_returns Rmult t1 (np_exp (np_neg ls)) Wt1
              (wf_map_arr exp _ (wf_map_arr Ropp ls Hl))
              (broadcasts_to_map_arr exp _ _
                 (broadcasts_to_map_arr Ropp _ _
                    (broadcasts_to_shape _ _ _ St1 Bl))))
    as (x2 & H2 & Wx2 & Sx2).
  rewrite St1 in Sx2. apply shape_eq in Sx2 as [Nx2 Wdx2].
  pose proof (half_le (width y)) as Hd.
  unfold nvp_inverse.
  destruct flip; unfold unchanged_half, transformed_half in *;
    rewrite E; cbn [bind]; fold np_sub in H1; rewrite H1; cbn [bind];
    fold np_mul in H2; rewrite H2; cbn [bind].
  - rewrite nrows_cols_to in Nx2. rewrite width_cols_to_half in Wdx2.
    destruct (concatenate_returns x2 (cols_from (width y / 2) y))
      as (x & H3 & Nx & Wx); [now rewrite nrows_cols_from|].
    rewrite H3; cbn [bind]. exists x; split; [reflexivity|].
    unfold shape. rewrite Nx, Wx, width_cols_from. f_equal; lia.
  - rewrite nrows_cols_from in Nx2. rewrite width_cols_from in Wdx2.
    destruct (concatenate_returns (cols_to (width y / 2) y) x2)
      as (x & H3 & Nx & Wx); [now rewrite nrows_cols_to|].
    rewrite H3; cbn [bind]. exists x; split; [reflexivity|].
    unfold shape. rewrite Nx, Wx, width_cols_to_half, nrows_cols_to.
    f_equal; lia.
Qed.

(** C8 (as amended).  [nvp_forward] and [nvp_inverse] make no check of the
    dimensionality: a batch of any width [D], odd or not, is split at
    [D / 2] rounded down, and both return a batch of the shape of their
    input whenever the conditioner returns, on the unchanged half, a
    [shift] and a [log_scale] that broadcast to the transformed half. *)
Theorem coupling_returns_on_any_width (net_params : pytree)
    (fn : conditioner) (x : ndarray) (flip : bool)
    (shift log_scale : ndarray) :
  wf x ->
  fn net_params (unchanged_half flip x) = Some (shift, log_scale) ->
  wf shift -> wf log_scale ->
  broadcasts_to shift (transformed_half flip x) ->
  broadcasts_to log_scale (transformed_half flip x) ->
  (exists y, nvp_forward net_params fn x flip = Some y /\
             shape y = shape x) /\
  (exists x', nvp_inverse net_params fn x flip = Some (x', log_scale) /\
              shape x' = shape x).
Proof.
  intros Hx E Hs Hl Bs Bl. split.
  - eapply nvp_forward_returns; eauto.
  - eapply nvp_inverse_returns; eauto.
Qed.

Lemma batch_1_3_wf : wf batch_1_3.
Proof. repeat constructor. Qed.

Lemma coupling_returns_on_any_width_witness :
  (exists y,
      nvp_forward (Leaf []) (shift_and_log_scale_fn zero_net_apply)
        batch_1_3 false = Some y /\
      shape y = shape batch_1_3) /\
  (exists x',
      nvp_inverse (Leaf []) (shift_and_log_scale_fn zero_net_apply)
        batch_1_3 false = Some (x', {| width := 1; rows := [[0]] |}) /\
      shape x' = shape batch_1_3).
Proof.
  apply (coupling_returns_on_any_width (Leaf [])
           (shift_and_log_scale_fn zero_net_apply) batch_1_3 false
           {| width := 1; rows := [[0]] |} {| width := 1; rows := [[0]] |}).
  - exact batch_1_3_wf.
  - reflexivity.
  - repeat constructor.
  - repeat constructor.
  - split; right; reflexivity.
  - split; right; reflexivity.
Defined.

(** C8 as stated fails: on a batch of width 3, which is odd and is not the
    [D = 2] of [init_nvp], the layer built on the conditioner of [init_nvp]
    raises nothing; it splits the rows into one and two columns and returns. *)
Lemma coupling_accepts_odd_width :
  Nat.odd (width batch_1_3) = true /\
  width batch_1_3 <> 2%nat /\
  nvp_forward (Leaf []) (shift_and_log_scale_fn zero_net_apply)
    batch_1_3 false
  = Some {| width := 3; rows := [[1; 2 * exp 0 + 0; 3 * exp 0 + 0]] |} /\
  nvp_inverse (Leaf []) (shift_and_log_scale_fn zero_net_apply)
    batch_1_3 false
  = Some ({| width := 3;
             rows := [[1; (2 - 0) * exp (- 0); (3 - 0) * exp (- 0)]] |},
          {| width := 1; rows := [[0]] |}).
Proof.
  split; [reflexivity|]. split; [discriminate|]. split; reflexivity.
Qed.

(** ** Addition of one-dimensional arrays *)

Lemma zip_with_repeat_l {A B C : Type} (f : A -> B -> C) (x : A) (n : nat)
    (b : list B) :
  length b = n -> zip_with f (repeat x n) b = map (f x) b.
Proof.
  revert n; induction b as [|y b IH]; intros [|n] H; simpl in *;
    try discriminate; auto.
  now rewrite IH by lia.
Qed.

Lemma zip_with_repeat_r {A B C : Type} (f : A -> B -> C) (a : list A)
    (y : B) (n : nat) :
  length a = n -> zip_with f a (repeat y n) = map (fun v => f v y) a.
Proof.
  revert n; induction a as [|x a IH]; intros [|n] H; simpl in *;
    try discriminate; auto.
  now rewrite IH by lia.
Qed.

Lemma zip_with_map_l {A A' B C : Type} (f : A -> B -> C) (g : A' -> A)
    (l : list A') (m : list B) :
  zip_with f (map g l) m = zip_with (fun a b => f (g a) b) l m.
Proof.
  revert m; induction l as [|a l IH]; intros [|b m]; simpl; auto.
  now rewrite IH.
Qed.

Lemma map_zip_with {A B C D : Type} (f : A -> B -> C) (g : C -> D)
    (l : list A) (m : list B) :
  map g (zip_with f l m) = zip_with (fun a b => g (f a b)) l m.
Proof.
  revert m; induction l as [|a l IH]; intros [|b m]; simpl; auto.
  now rewrite IH.
Qed.

Lemma zip_with_ext {A B C : Type} (f g : A -> B -> C) (l : list A)
    (m : list B) :
  (forall a b, f a b = g a b) -> zip_with f l m = zip_with g l m.
Proof.
  intros H. revert m; induction l as [|a l IH]; intros [|b m]; simpl; auto.
  now rewrite H, IH.
Qed.

Lemma zip_with_comm {A C : Type} (f : A -> A -> C) (l m : list A) :
  (forall a b, f a b = f b a) -> zip_with f l m = zip_with f m l.
Proof.
  intros H. revert m; induction l as [|a l IH]; intros [|b m]; simpl; auto.
  now rewrite H, IH.
Qed.

Lemma zip_with_assoc (a b c : list R) :
  zip_with Rplus (zip_with Rplus a b) c
  = zip_with Rplus a (zip_with Rplus b c).
Proof.
  revert b c; induction a as [|x a IH]; intros [|y b] [|z c]; simpl; auto.
  now rewrite IH, Rplus_assoc.
Qed.

Lemma broadcast_dim_comm (n m : nat) :
  broadcast_dim n m = broadcast_dim m n.
Proof.
  unfold broadcast_dim.
  destruct (Nat.eqb_spec n m), (Nat.eqb_spec m n); try congruence.
  destruct (Nat.eqb_spec n 1), (Nat.eqb_spec m 1); congruence.
Qed.

Lemma broadcast_dim_1_l (m : nat) : broadcast_dim 1 m = Some m.
Proof.
  unfold broadcast_dim. destruct (Nat.eqb_spec 1 m); [now subst|reflexivity].
Qed.

Lemma broadcast_dim_1_r (n : nat) : broadcast_dim n 1 = Some n.
Proof. rewrite broadcast_dim_comm. apply broadcast_dim_1_l. Qed.

Lemma vadd_comm (a b : vec) : vadd a b = vadd b a.
Proof.
  unfold vadd. rewrite broadcast_dim_comm.
  destruct (broadcast_dim (length b) (length a)); simpl; auto.
  f_equal. apply zip_with_comm, Rplus_comm.
Qed.

(** A one-element array behaves as a scalar. *)
Lemma vadd_scalar_l (x : R) (b : vec) : vadd [x] b = Some (map (Rplus x) b).
Proof.
  unfold vadd. cbn [length]. rewrite broadcast_dim_1_l; cbn [bind].
  rewrite (stretch_id _ b) by reflexivity.
  cbn [stretch]. now rewrite zip_with_repeat_l.
Qed.

Lemma vadd_scalar_r (a : vec) (y : R) :
  vadd a [y] = Some (map (fun v => v + y) a).
Proof.
  rewrite vadd_comm, vadd_scalar_l. f_equal.
  apply map_ext. intros v. apply Rplus_comm.
Qed.

Lemma stretch_not_single {A : Type} (n : nat) (l : list A) :
  length l <> 1%nat -> stretch n l = l.
Proof.
  destruct l as [|a [|b l]]; simpl; auto. intros H; now elim H.
Qed.

Lemma vadd_not_single (a b : vec) :
  length a <> 1%nat -> length b <> 1%nat ->
  vadd a b = if Nat.eqb (length a) (length b)
             then Some (zip_with Rplus a b) else None.
Proof.
  intros Ha Hb. unfold vadd, broadcast_dim.
  destruct (Nat.eqb_spec (length a) (length b)); cbn [bind].
  - now rewrite !stretch_not_single.
  - destruct (Nat.eqb_spec (length a) 1); [contradiction|].
    destruct (Nat.eqb_spec (length b) 1); [contradiction|].
    reflexivity.
Qed.

Lemma vadd_zero_r (a : vec) : vadd a [0] = Some a.
Proof.
  rewrite vadd_scalar_r. f_equal.
  rewrite <- (map_id a) at 2. apply map_ext. intros v. ring.
Qed.

Lemma vadd_zero_l (a : vec) : vadd [0] a = Some a.
Proof. rewrite vadd_comm. apply vadd_zero_r. Qed.

Lemma vadd_map_l (x : R) (b c : vec) :
  vadd (map (Rplus x) b) c = option_map (map (Rplus x)) (vadd b c).
Proof.
  unfold vadd. rewrite length_map.
  destruct (broadcast_dim (length b) (length c)) as [n|]; simpl; auto.
  f_equal. rewrite stretch_map, zip_with_map_l, map_zip_with.
  apply zip_with_ext. intros u v. ring.
Qed.

Lemma vadd_map_r (a b : vec) (z : R) :
  vadd a (map (fun v => v + z) b)
  = option_map (map (fun v => v + z)) (vadd a b).
Proof.
  unfold vadd. rewrite length_map.
  destruct (broadcast_dim (length a) (length b)) as [n|]; simpl; auto.
  f_equal. rewrite stretch_map, zip_with_map_r, map_zip_with.
  apply zip_with_ext. intros u v. ring.
Qed.

Lemma length_single {A : Type} (l : list A) :
  length l = 1%nat -> exists x, l = [x].
Proof.
  destruct l as [|x [|y l]]; simpl; try discriminate. now exists x.
Qed.

Lemma vadd_assoc (a b c : vec) :
  (ab <- vadd a b ;; vadd ab c) = (bc <- vadd b c ;; vadd a bc).
Proof.
  destruct (Nat.eq_dec (length a) 1) as [Ha|Ha].
  { apply length_single in Ha as [x ->].
    rewrite vadd_scalar_l; cbn [bind]. rewrite vadd_map_l.
    destruct (vadd b c) as [bc|]; simpl; auto.
    now rewrite vadd_scalar_l. }
  destruct (Nat.eq_dec (length c) 1) as [Hc|Hc].
  { apply length_single in Hc as [z ->].
    rewrite (vadd_scalar_r b); cbn [bind]. rewrite vadd_map_r.
    destruct (vadd a b) as [ab|]; simpl; auto.
    now rewrite vadd_scalar_r. }
  destruct (Nat.eq_dec (length b) 1) as [Hb|Hb].
  { apply length_single in Hb as [y ->].
    rewrite vadd_scalar_r, vadd_scalar_l; cbn [bind].
    rewrite !vadd_not_single by (rewrite ?length_map; auto).
    rewrite !length_map.
    destruct (Nat.eqb (length a) (length c)); auto.
    f_equal. rewrite zip_with_map_l, zip_with_map_r.
    apply zip_with_ext. intros u v. ring. }
  rewrite (vadd_not_single a b), (vadd_not_single b c) by auto.
  destruct (Nat.eqb_spec (length a) (length b)) as [Eab|Eab];
    destruct (Nat.eqb_spec (length b) (length c)) as [Ebc|Ebc]; simpl;
    rewrite ?vadd_not_single
      by (rewrite ?zip_with_length; auto; lia);
    rewrite ?zip_with_length.
  - rewrite Eab, Ebc, Nat.min_id, Nat.eqb_refl.
    now rewrite zip_with_assoc.
  - rewrite Eab, Nat.min_id.
    destruct (Nat.eqb_spec (length b) (length c)); [contradiction|auto].
  - rewrite Ebc, Nat.min_id.
    destruct (Nat.eqb_spec (length a) (length c)); [congruence|auto].
  - reflexivity.
Qed.

(** ** The chain log-density *)

(** The closure built last is the one called first: it inverts the last
    layer and hands the result to the closure of the layers before it. *)
Lemma chain_snoc (layers : list (pytree * config)) (p : pytree)
    (fn : conditioner) (flip : bool) (base : log_prob_fn_t) (y : ndarray) :
  fold_left chain_step (layers ++ [(p, (fn, flip))]) base y
  = log_prob_nvp p fn (fold_left chain_step layers base) y flip.
Proof.
  now rewrite fold_left_app.
Qed.

(** The total accumulated so far can be added at the end. *)
Lemma invert_layers_total (base : log_prob_fn_t)
    (layers : list (pytree * config)) :
  forall (y : ndarray) (t0 : vec),
    ('(x, total) <- invert_layers layers y t0 ;;
     b <- base x ;; vadd b total)
    = (r <- log_prob_by_inversion layers base y ;; vadd r t0).
Proof.
  unfold log_prob_by_inversion.
  induction layers as [|[p [fn flip]] rest IH]; intros y t0.
  - cbn [invert_layers bind].
    destruct (base y) as [b|]; cbn [bind]; auto.
    now rewrite vadd_zero_r.
  - cbn [invert_layers].
    destruct (nvp_inverse p fn y flip) as [[x ls]|]; cbn [bind]; auto.
    rewrite vadd_zero_l; cbn [bind].
    rewrite (IH x (vneg (sum_last ls))).
    destruct (vadd t0 (vneg (sum_last ls))) as [t1|] eqn:Et1; cbn [bind].
    + rewrite (IH x t1).
      destruct (bind (invert_layers rest x [0]) _) as [r|]; cbn [bind]; auto.
      rewrite vadd_assoc. rewrite (vadd_comm (vneg _) t0), Et1.
      reflexivity.
    + destruct (bind (invert_layers rest x [0]) _) as [r|]; cbn [bind]; auto.
      rewrite vadd_assoc. rewrite (vadd_comm (vneg _) t0), Et1.
      reflexivity.
Qed.

Lemma chain_by_inversion (base : log_prob_fn_t)
    (layers : list (pytree * config)) :
  forall y : ndarray,
    fold_left chain_step layers base y
    = log_prob_by_inversion (rev layers) base y.
Proof.
  induction layers as [|[p [fn flip]] layers IH] using rev_ind; intros y.
  - unfold log_prob_by_inversion; cbn [rev invert_layers fold_left bind].
    destruct (base y) as [b|]; cbn [bind]; auto.
    now rewrite vadd_zero_r.
  - rewrite chain_snoc, rev_unit.
    unfold log_prob_nvp.
    unfold log_prob_by_inversion at 1. cbn [invert_layers].
    destruct (nvp_inverse p fn y flip) as [[x ls]|]; cbn [bind]; auto.
    rewrite vadd_zero_l; cbn [bind].
    rewrite invert_layers_total. now rewrite IH.
Qed.

(** C2 (as amended).  [log_prob_nvp_chain] inverts the layers in the
    reverse of the list order, the last layer first and layer 0 last,
    accumulates [ildj = -sum(log_scale)] of every layer, and returns the
    base log-density of the fully inverted batch plus the total. *)
Theorem log_prob_nvp_chain_inverts_last_layer_first (ps : list pytree)
    (configs : list config) (base_log_prob_fn : log_prob_fn_t)
    (y : ndarray) :
  log_prob_nvp_chain ps configs base_log_prob_fn y
  = log_prob_by_inversion (rev (combine ps configs)) base_log_prob_fn y.
Proof.
  unfold log_prob_nvp_chain.
  apply (chain_by_inversion base_log_prob_fn (combine ps configs) y).
Qed.

(** C2 as stated fails: on a chain of two layers, inverting layer 0 first
    and layer 1 second gives another value than [log_prob_nvp_chain]. *)
Lemma log_prob_nvp_chain_not_in_list_order :
  log_prob_nvp_chain two_layer_ps two_layer_configs
    (fun x => Some (log_prob_n01 x)) batch_1_0
  <> log_prob_by_inversion (combine two_layer_ps two_layer_configs)
       (fun x => Some (log_prob_n01 x)) batch_1_0.
Proof.
  intros H. cbn in H. injection H as H.
  rewrite Ropp_0, exp_0 in H. lra.
Qed.

(** ** The chain log-density undoes the sampling chain *)

Lemma runs_forward_chain (layers : list (pytree * config))
    (x y : ndarray) :
  runs_forward layers x y -> fold_left forward_step layers (Some x) = Some y.
Proof.
  induction 1 as [x|p fn flip rest x x1 y H1 _ _ IH]; cbn [fold_left].
  - reflexivity.
  - unfold forward_step at 2. cbn [bind]. now rewrite H1.
Qed.

Lemma invert_layers_app (l1 l2 : list (pytree * config)) :
  forall (y : ndarray) (total : vec),
    invert_layers (l1 ++ l2) y total
    = ('(x, total') <- invert_layers l1 y total ;;
       invert_layers l2 x total').
Proof.
  induction l1 as [|[p [fn flip]] l1 IH]; intros y total; cbn [app].
  - reflexivity.
  - cbn [invert_layers].
    destruct (nvp_inverse p fn y flip) as [[x ls]|]; cbn [bind]; auto.
    destruct (vadd total (vneg (sum_last ls))) as [t|]; cbn [bind]; auto.
Qed.

Lemma vadd_fits (n : nat) (a b : vec) :
  fits n (length a) -> fits n (length b) ->
  exists c, vadd a b = Some c /\ fits n (length c).
Proof.
  unfold fits. intros Ha Hb.
  destruct (Nat.eq_dec (length a) 1) as [Ea|Ea].
  { apply length_single in Ea as [u ->]. rewrite vadd_scalar_l.
    eexists; split; [reflexivity|]. now rewrite length_map. }
  destruct (Nat.eq_dec (length b) 1) as [Eb|Eb].
  { apply length_single in Eb as [v ->]. rewrite vadd_scalar_r.
    eexists; split; [reflexivity|]. now rewrite length_map. }
  rewrite vadd_not_single by auto.
  destruct Ha as [Ha|Ha]; [|contradiction].
  destruct Hb as [Hb|Hb]; [|contradiction].
  rewrite Ha, Hb, Nat.eqb_refl.
  eexists; split; [reflexivity|]. rewrite zip_with_length. left; lia.
Qed.

(** On the output of a forward run from [x], the inverse pass over the
    reversed list of layers returns [x]. *)
Lemma invert_layers_runs_forward (layers : list (pytree * config))
    (x y : ndarray) :
  runs_forward layers x y ->
  wf x ->
  Forall (fun layer => cond_wf (fst (snd layer))) layers ->
  forall total : vec,
    fits (nrows x) (length total) ->
    exists total',
      invert_layers (rev layers) y total = Some (x, total') /\
      fits (nrows x) (length total').
Proof.
  induction 1 as [x|p fn flip rest x x1 y H1 Hs _ IH];
    intros Hx Hfn total Ht.
  - exists total. split; [reflexivity | exact Ht].
  - inversion Hfn as [|? ? Hfn1 Hfn']; subst. cbn [fst snd] in Hfn1.
    pose proof (nvp_forward_wf _ _ _ _ _ Hx Hfn1 H1) as Hx1.
    apply shape_eq in Hs as Hs'. destruct Hs' as [Hn1 _].
    rewrite <- Hn1 in Ht.
    destruct (IH Hx1 Hfn' total Ht) as (t1 & E1 & Ft1).
    destruct (nvp_inverse_of_forward _ _ _ _ _ Hx Hfn1 H1 Hs)
      as (shift & ls & _ & Fl & Hinv).
    rewrite Hn1 in Ft1.
    destruct (vadd_fits (nrows x) t1 (vneg (sum_last ls)) Ft1)
      as (t2 & E2 & Ft2).
    { unfold vneg, sum_last. now rewrite !length_map. }
    exists t2. split; [|exact Ft2].
    cbn [rev]. rewrite invert_layers_app, E1; cbn [bind invert_layers].
    rewrite Hinv; cbn [bind]. now rewrite E2.
Qed.

(** So the value of [log_prob_nvp_chain] on a sample [y] of the chain is
    the base log-density of the base sample [x] it came from, plus the
    accumulated log-Jacobian terms. *)
Lemma log_prob_nvp_chain_on_sample (ps : list pytree)
    (configs : list config) (base : log_prob_fn_t) (x y : ndarray) :
  runs_forward (combine ps configs) x y ->
  wf x ->
  Forall (fun layer => cond_wf (fst (snd layer))) (combine ps configs) ->
  forward_chain ps configs x = Some y /\
  exists total,
    fits (nrows x) (length total) /\
    log_prob_nvp_chain ps configs base y = (b <- base x ;; vadd b total).
Proof.
  intros Hrun Hx Hfn. split.
  - now apply runs_forward_chain.
  - destruct (invert_layers_runs_forward _ _ _ Hrun Hx Hfn [0])
      as (total & E & Ft); [right; reflexivity|].
    exists total. split; [exact Ft|].
    unfold log_prob_nvp_chain. rewrite chain_by_inversion.
    unfold log_prob_by_inversion. now rewrite E.
Qed.

(** ** The base density *)

Lemma sqrt_2PI_pos : 0 < sqrt (2 * PI).
Proof. apply sqrt_lt_R0. pose proof PI_RGT_0. lra. Qed.

Lemma ln_std_normal_pdf (v : R) :
  ln (std_normal_pdf v) = - (v * v) / 2 - ln (sqrt (2 * PI)).
Proof.
  unfold std_normal_pdf.
  rewrite ln_mult.
  - rewrite ln_Rinv by apply sqrt_2PI_pos. rewrite ln_exp. ring.
  - apply Rinv_0_lt_compat, sqrt_2PI_pos.
  - apply exp_pos.
Qed.

(** C9.  [log_prob_n01] returns one value per row: the sum over the
    entries [v] of the row of [-v^2/2 - log(sqrt(2 pi))], which is the
    logarithm of the standard normal density at [v]. *)
Theorem log_prob_n01_closed_form (x : ndarray) :
  length (log_prob_n01 x) = nrows x /\
  log_prob_n01 x
  = map (fun r => Rsum (map (fun v => - (v * v) / 2 - ln (sqrt (2 * PI))) r))
        (rows x) /\
  log_prob_n01 x
  = map (fun r => Rsum (map (fun v => ln (std_normal_pdf v)) r)) (rows x).
Proof.
  assert (H : log_prob_n01 x
              = map (fun r => Rsum (map (fun v => - (v * v) / 2
                                                  - ln (sqrt (2 * PI))) r))
                    (rows x)).
  { unfold log_prob_n01, sum_last, np_neg, map_arr; cbn [rows].
    rewrite !map_map. apply map_ext. intros r.
    now rewrite !map_map. }
  repeat split.
  - rewrite H. unfold nrows. apply length_map.
  - exact H.
  - rewrite H. apply map_ext. intros r. f_equal.
    apply map_ext. intros v. symmetry. apply ln_std_normal_pdf.
Qed.

(** ** The weight-decay penalty *)

Lemma pytree_induction (P : pytree -> Prop) :
  (forall a, P (Leaf a)) ->
  (forall children, Forall P children -> P (Node children)) ->
  forall t, P t.
Proof.
  intros HL HN. fix IH 1. intros [a|children].
  - apply HL.
  - apply HN. induction children as [|c children IHc]; constructor.
    + apply IH.
    + exact IHc.
Qed.

Lemma fold_left_Rplus (l : list R) (a : R) :
  fold_left Rplus l a = a + Rsum l.
Proof.
  revert a; induction l as [|x l IH]; intros a; simpl.
  - ring.
  - rewrite IH. ring.
Qed.

Lemma Rsum_app (l m : list R) : Rsum (l ++ m) = Rsum l + Rsum m.
Proof.
  induction l as [|x l IH]; simpl.
  - ring.
  - fold (Rsum (l ++ m)) (Rsum l). rewrite IH. ring.
Qed.

Lemma vdot_self (a : list R) : vdot a a = Rsum (map (fun v => v * v) a).
Proof.
  unfold vdot. f_equal. induction a as [|v a IH]; simpl; auto.
  now rewrite IH.
Qed.

Lemma sum_squares_flatten (t : pytree) :
  Rsum (map (fun x => vdot x x) (tree_flatten t)) = sum_squares t.
Proof.
  induction t as [a|children IH] using pytree_induction.
  - cbn [tree_flatten sum_squares map]. rewrite vdot_self.
    unfold Rsum at 1. cbn [fold_right]. fold (Rsum (map (fun v => v * v) a)).
    ring.
  - cbn [tree_flatten sum_squares].
    induction IH as [|c children Hc _ IHch]; cbn [flat_map map].
    + reflexivity.
    + rewrite map_app, Rsum_app, Hc, IHch. reflexivity.
Qed.

Lemma l2_norm_sqrt (t : pytree) : l2_norm t = sqrt (sum_squares t).
Proof.
  unfold l2_norm. rewrite fold_left_Rplus, sum_squares_flatten.
  f_equal. ring.
Qed.

Section NotebookProperties.

Variable PRNGKey : Type.
Variable rng : PRNGKey.
Variable net_init : PRNGKey -> Z * Z -> (Z * Z) * pytree.
Variable net_apply : pytree -> ndarray -> option ndarray.

(** C3 (as amended).  The training loss is the negative mean of the chain
    log-probability of the batch plus [beta] times the L2 norm of the
    parameters, the square root of the sum of their squares: the norm is
    not squared. *)
Theorem loss_penalty_is_l2_norm (params : list pytree) (batch : ndarray) :
  loss rng net_init net_apply params batch
  = (lp <- log_prob_nvp_chain params (cs rng net_init net_apply)
             (fun x => Some (log_prob_n01 x)) batch ;;
     Some (- np_mean lp + beta hp * sqrt (sum_squares (Node params)))).
Proof.
  unfold loss. now rewrite l2_norm_sqrt.
Qed.

(** ** The loop of [init_nvp_chain] *)

Lemma init_nvp_chain_loop (k a : nat) (flip : bool) (ps : list pytree)
    (configs : list config) :
  fold_left (init_nvp_chain_body rng net_init net_apply) (seq a k)
    (flip, ps, configs)
  = (xorb flip (Nat.odd k),
     ps ++ repeat (fst (init_nvp rng net_init net_apply)) k,
     configs ++ map (fun i => (snd (init_nvp rng net_init net_apply),
                               xorb flip (Nat.odd i))) (seq 0 k)).
Proof.
  revert a flip ps configs.
  induction k as [|k IH]; intros a flip ps configs.
  - cbn [seq fold_left repeat map]. now rewrite xorb_false_r, !app_nil_r.
  - cbn [seq fold_left]. unfold init_nvp_chain_body at 2.
    rewrite (surjective_pairing (init_nvp rng net_init net_apply)).
    cbn [fst snd]. rewrite IH. rewrite <- !app_assoc.
    cbn [repeat map app]. rewrite <- seq_shift, map_map.
    rewrite Nat.odd_succ, <- Nat.negb_odd.
    f_equal; [f_equal|].
    + now destruct flip, (Nat.odd k).
    + f_equal. f_equal.
      * now rewrite xorb_false_r.
      * apply map_ext. intros i.
        rewrite Nat.odd_succ, <- Nat.negb_odd.
        now destruct flip, (Nat.odd i).
Qed.

(** The chain of [n] layers: [n] copies of the parameters of one call of
    [init_nvp], and the conditioner with the flags false, true, false, ... *)
Lemma init_nvp_chain_eq (n : Z) :
  init_nvp_chain rng net_init net_apply n
  = (repeat (fst (init_nvp rng net_init net_apply)) (Z.to_nat n),
     map (fun i => (snd (init_nvp rng net_init net_apply), Nat.odd i))
         (seq 0 (Z.to_nat n))).
Proof.
  unfold init_nvp_chain, range. rewrite init_nvp_chain_loop.
  reflexivity.
Qed.

(** C6.  The flip flags of [init_nvp_chain(n)] alternate, starting without
    flip: the flag of layer [i] is false for even [i] and true for odd
    [i]. *)
Theorem init_nvp_chain_alternates_flip (n : Z) (i : nat) :
  (Z.of_nat i < n)%Z ->
  option_map snd
    (nth_error (snd (init_nvp_chain rng net_init net_apply n)) i)
  = Some (Nat.odd i).
Proof.
  intros Hi. rewrite init_nvp_chain_eq; cbn [snd].
  rewrite nth_error_map, nth_error_seq.
  destruct (Nat.ltb_spec i (Z.to_nat n)) as [_|Hge]; [reflexivity|lia].
Qed.

(** C7 (as amended).  [init_nvp_chain] validates nothing: for every [n] it
    returns a chain of [max(n, 0)] layers, and for the chain length zero
    the loop body never runs and the call returns the empty chain, a pair
    of empty lists. *)
Theorem init_nvp_chain_zero_is_empty :
  init_nvp_chain rng net_init net_apply 0 = ([], []) /\
  forall n : Z,
    length (fst (init_nvp_chain rng net_init net_apply n)) = Z.to_nat n /\
    length (snd (init_nvp_chain rng net_init net_apply n)) = Z.to_nat n.
Proof.
  split; [reflexivity|].
  intros n. rewrite init_nvp_chain_eq; cbn [fst snd].
  now rewrite repeat_length, length_map, length_seq.
Qed.

(** C10.  Every call of [init_nvp] reads the same key [rng], so all the
    layers of [init_nvp_chain(n)] start from the same parameters: any two
    of them are equal, and equal to what one more call of [init_nvp]
    returns. *)
Theorem init_nvp_chain_params_identical (n : Z) (i j : nat)
    (p q : pytree) :
  nth_error (fst (init_nvp_chain rng net_init net_apply n)) i = Some p ->
  nth_error (fst (init_nvp_chain rng net_init net_apply n)) j = Some q ->
  p = q /\ p = fst (init_nvp rng net_init net_apply).
Proof.
  rewrite init_nvp_chain_eq; cbn [fst].
  intros Hp Hq.
  apply nth_error_In, repeat_spec in Hp.
  apply nth_error_In, repeat_spec in Hq.
  split; congruence.
Qed.

End NotebookProperties.

Lemma init_nvp_chain_alternates_flip_witness :
  option_map snd
    (nth_error (snd (init_nvp_chain tt zero_net_init zero_net_apply 3)) 1)
  = Some (Nat.odd 1).
Proof.
  apply (init_nvp_chain_alternates_flip unit tt zero_net_init zero_net_apply
           3 1).
  reflexivity.
Defined.

Lemma init_nvp_chain_params_identical_witness :
  Leaf [7] = Leaf [7] /\
  Leaf [7] = fst (init_nvp 7 key_net_init zero_net_apply).
Proof.
  apply (init_nvp_chain_params_identical R 7 key_net_init zero_net_apply
           2 0 1 (Leaf [7]) (Leaf [7])).
  - reflexivity.
  - reflexivity.
Defined.

(** C7 as stated fails: the chain length zero is accepted, the empty chain
    is returned, and it is usable: its log-density is the base
    log-density. *)
Lemma init_nvp_chain_accepts_zero :
  init_nvp_chain tt zero_net_init zero_net_apply 0 = ([], []) /\
  log_prob_nvp_chain [] [] (fun x => Some (log_prob_n01 x)) batch_1_0
  = Some (log_prob_n01 batch_1_0).
Proof.
  split; reflexivity.
Qed.

(** C3 as stated fails: for parameters of norm 2 the penalty is [beta * 2],
    not [beta * 4]. *)
Lemma loss_penalty_not_squared :
  loss tt zero_net_init zero_net_apply [Leaf [2]] batch_1_0
  <> loss_with_squared_norm tt zero_net_init zero_net_apply [Leaf [2]]
       batch_1_0.
Proof.
  assert (Hnorm : l2_norm (Node [Leaf [2]]) = 2).
  { rewrite l2_norm_sqrt. cbn [sum_squares map Rsum fold_right].
    replace (2 * 2 + 0 + 0) with (2 * 2) by ring.
    apply sqrt_square. lra. }
  unfold loss, loss_with_squared_norm. rewrite Hnorm.
  destruct (log_prob_nvp_chain _ _ _ _) as [lp|] eqn:E.
  - cbn [bind sum_squares map Rsum fold_right beta hp].
    intros [= H]. lra.
  - exfalso. lazy in E. discriminate E.
Qed.

(** * Further properties of the notebook *)

(** ** The coupling layer, in both directions *)

(** What [nvp_inverse] computed when it returned [(x, log_scale)]. *)
Lemma nvp_inverse_Some (p : pytree) (fn : conditioner) (y x ls : ndarray)
    (flip : bool) :
  nvp_inverse p fn y flip = Some (x, ls) ->
  exists shift t1 x2,
    fn p (unchanged_half flip y) = Some (shift, ls) /\
    np_sub (transformed_half flip y) shift = Some t1 /\
    np_mul t1 (np_exp (np_neg ls)) = Some x2 /\
    (if flip then concatenate x2 (unchanged_half flip y)
     else concatenate (unchanged_half flip y) x2) = Some x.
Proof.
  unfold nvp_inverse, unchanged_half, transformed_half.
  destruct flip; intros H.
  - inv_bind H. destruct a as [shift ls']. inv_bind H. inv_bind H.
    inv_bind H. injection H as <- <-. exists shift, a, a0. auto.
  - inv_bind H. destruct a as [shift ls']. inv_bind H. inv_bind H.
    inv_bind H. injection H as <- <-. exists shift, a, a0. auto.
Qed.

Lemma affine_redo (v a b : R) : (v - b) * exp (- a) * exp a + b = v.
Proof.
  rewrite Rmult_assoc, <- exp_plus, Rplus_opp_l, exp_0. ring.
Qed.

Lemma affine_redo_row (r l s : list R) :
  length l = length r -> length s = length r ->
  zip_with Rplus
    (zip_with Rmult
       (zip_with Rmult (zip_with Rminus r s) (map exp (map Ropp l)))
       (map exp l)) s = r.
Proof.
  revert l s; induction r as [|v r IH]; intros [|a l] [|b s] Hl Hs;
    simpl in *; try discriminate; auto.
  rewrite affine_redo, IH; auto.
Qed.

Lemma affine_redo_arr (t l s : ndarray) :
  wf t -> wf l -> wf s ->
  shape l = shape t -> shape s = shape t ->
  zip_arr Rplus
    (zip_arr Rmult (zip_arr Rmult (zip_arr Rminus t s) (np_exp (np_neg l)))
       (np_exp l)) s = t.
Proof.
  unfold shape, nrows, wf. intros Ht Hl Hs [= Hnl Hwl] [= Hns Hws].
  apply ndarray_eq; simpl; auto.
  rewrite Hwl in Hl. rewrite Hws in Hs.
  revert Ht Hl Hs Hnl Hns.
  generalize (width t) (rows t) (rows l) (rows s).
  intros w rt. induction rt as [|r rt IH]; intros [|a rl] [|b rs];
    intros Ht Hl Hs Hnl Hns; simpl in *; try discriminate; auto.
  inversion Ht; inversion Hl; inversion Hs; subst.
  rewrite affine_redo_row, IH; auto; lia.
Qed.

(** The transformed half, from the inverse side:
    [x2 = (y2 - shift) * exp(-log_scale)] is mapped back to [y2] by
    [x2 * exp(log_scale) + shift] whenever [x2] kept the shape of [y2]. *)
Lemma affine_roundtrip_back (t ls shift t1 x2 : ndarray) :
  wf t -> wf ls -> wf shift ->
  np_sub t shift = Some t1 ->
  np_mul t1 (np_exp (np_neg ls)) = Some x2 ->
  shape x2 = shape t ->
  wf x2 /\
  exists t2, np_mul x2 (np_exp ls) = Some t2 /\ np_add t2 shift = Some t.
Proof.
  intros Ht Hls Hsh H1 H2 Hshape.
  unfold shape in Hshape. injection Hshape as Hn Hw.
  assert (Hel : wf (np_exp (np_neg ls)))
    by now apply wf_map_arr, wf_map_arr.
  destruct (broadcast2_Some _ _ _ _ Ht Hsh H1) as (Wt1 & Dn1 & Dw1 & Et1).
  destruct (broadcast2_Some _ _ _ _ Wt1 Hel H2) as (Wx2 & Dn2 & Dw2 & Ex2).
  rewrite Hn in Dn2. rewrite Hw in Dw2.
  destruct (broadcast_dim_chain _ _ _ _ Dn1 Dn2) as (En & Fns & Fnl).
  destruct (broadcast_dim_chain _ _ _ _ Dw1 Dw2) as (Ew & Fws & Fwl).
  unfold np_exp, np_neg in Fnl, Fwl. rewrite !nrows_map_arr in Fnl.
  cbn [width map_arr] in Fwl.
  set (N := nrows t) in *. set (W := width t) in *.
  set (L := broadcast_to N W ls).
  set (S1 := broadcast_to N W shift).
  destruct (broadcast_to_shape N W ls Hls Fnl Fwl) as (WL & NL & WdL).
  destruct (broadcast_to_shape N W shift Hsh Fns Fws) as (WS & NS & WdS).
  fold L in WL, NL, WdL. fold S1 in WS, NS, WdS.
  assert (Et1' : t1 = zip_arr Rminus t S1).
  { rewrite Et1, En, Ew. now rewrite (broadcast_to_id N W t). }
  assert (Ex2' : x2 = zip_arr Rmult t1 (np_exp (np_neg L))).
  { rewrite Ex2 at 1. rewrite Hn, Hw. fold N W.
    rewrite (broadcast_to_id N W t1); auto.
    unfold np_exp, np_neg. now rewrite !broadcast_to_map_arr. }
  split; [exact Wx2|].
  assert (WM : wf (zip_arr Rmult x2 (np_exp L)) /\
               nrows (zip_arr Rmult x2 (np_exp L)) = N /\
               width (zip_arr Rmult x2 (np_exp L)) = W).
  { destruct (zip_arr_shape Rmult x2 (np_exp L)) as (A & B & C).
    - exact Wx2.
    - now apply wf_map_arr.
    - change (width (np_exp L)) with (width L). now rewrite Hw, WdL.
    - unfold np_exp. rewrite nrows_map_arr. now rewrite Hn, NL.
    - repeat split; auto; try (now rewrite B, Hn); now rewrite C, Hw. }
  destruct WM as (WM & NM & WdM).
  exists (zip_arr Rmult x2 (np_exp L)). split.
  - unfold np_mul. rewrite broadcast2_fits; auto.
    + rewrite Hn, Hw. fold N W. unfold np_exp.
      now rewrite broadcast_to_map_arr.
    + unfold np_exp. rewrite nrows_map_arr. now rewrite Hn.
    + unfold np_exp; cbn [width map_arr]. now rewrite Hw.
  - unfold np_add. rewrite broadcast2_fits; auto.
    + rewrite NM, WdM. f_equal. fold S1. rewrite Ex2', Et1'.
      apply affine_redo_arr; auto; unfold shape.
      * now rewrite NL, WdL.
      * now rewrite NS, WdS.
    + now rewrite NM.
    + now rewrite WdM.
Qed.

(** X1.  The round trip in the other direction: when [nvp_inverse] returns
    on a rectangular batch [y] a batch [x] of the shape of [y], then
    [nvp_forward] on [x] returns [y] again. *)
Theorem nvp_forward_inverse_roundtrip (net_params : pytree)
    (fn : conditioner) (y x log_scale : ndarray) (flip : bool) :
  wf y -> cond_wf fn ->
  nvp_inverse net_params fn y flip = Some (x, log_scale) ->
  shape x = shape y ->
  nvp_forward net_params fn x flip = Some y.
Proof.
  intros Hy Hfn H Hshape.
  apply nvp_inverse_Some in H as (shift & t1 & x2 & E & H1 & H2 & H3).
  pose proof (wf_unchanged_half flip y Hy) as Hu.
  pose proof (wf_transformed_half flip y Hy) as Ht.
  destruct (Hfn _ _ _ _ Hu E) as [Hs Hl].
  unfold shape in Hshape. injection Hshape as Hn Hw.
  pose proof (half_le (width y)) as Hd.
  unfold nvp_forward. rewrite Hw.
  destruct flip; unfold unchanged_half, transformed_half in *.
  - pose proof (concatenate_Some _ _ _ H3) as (Hn3 & Hw3 & _).
    rewrite width_cols_from in Hw3. rewrite nrows_cols_from in Hn3.
    assert (Hwx2 : width x2 = (width y / 2)%nat) by lia.
    assert (Hsh : shape x2 = shape (cols_to (width y / 2) y)).
    { unfold shape. rewrite nrows_cols_to, width_cols_to_half.
      f_equal; lia. }
    destruct (affine_roundtrip_back _ _ _ _ _ Ht Hl Hs H1 H2 Hsh)
      as (Wx2 & t2 & H4 & H5).
    assert (S1 : cols_to (width y / 2) x = x2).
    { rewrite <- Hwx2. now apply cols_to_concatenate with (2 := H3). }
    assert (S2 : cols_from (width y / 2) x = cols_from (width y / 2) y).
    { rewrite <- Hwx2 at 1.
      now apply cols_from_concatenate with (2 := H3). }
    rewrite S1, S2, E; cbn [bind]. rewrite H4; cbn [bind].
    rewrite H5; cbn [bind].
    now apply concatenate_halves.
  - pose proof (concatenate_Some _ _ _ H3) as (Hn3 & Hw3 & _).
    rewrite width_cols_to_half in Hw3. rewrite nrows_cols_to in Hn3.
    assert (Hsh : shape x2 = shape (cols_from (width y / 2) y)).
    { unfold shape. rewrite nrows_cols_from, width_cols_from.
      f_equal; lia. }
    destruct (affine_roundtrip_back _ _ _ _ _ Ht Hl Hs H1 H2 Hsh)
      as (Wx2 & t2 & H4 & H5).
    assert (S1 : cols_to (width y / 2) x = cols_to (width y / 2) y).
    { rewrite <- (width_cols_to_half y) at 1.
      now apply cols_to_concatenate with (2 := H3). }
    assert (S2 : cols_from (width y / 2) x = x2).
    { rewrite <- (width_cols_to_half y).
      now apply cols_from_concatenate with (2 := H3). }
    rewrite S1, S2, E; cbn [bind]. rewrite H4; cbn [bind].
    rewrite H5; cbn [bind].
    now apply concatenate_halves.
Qed.

Lemma nvp_forward_inverse_roundtrip_witness :
  nvp_forward (Leaf []) echo_conditioner
    {| width := 2; rows := [[1; (2 - 1) * exp (- 1)]] |} false
  = Some batch_1_2.
Proof.
  apply (nvp_forward_inverse_roundtrip (Leaf []) echo_conditioner batch_1_2
           {| width := 2; rows := [[1; (2 - 1) * exp (- 1)]] |}
           {| width := 1; rows := [[1]] |} false).
  - exact batch_1_2_wf.
  - exact echo_conditioner_wf.
  - reflexivity.
  - reflexivity.
Defined.

(** X2.  Neither direction changes the number of rows of a batch, and both
    return rectangular arrays: broadcasting against the conditioner's
    outputs can widen the transformed half, but a result with more rows
    than the input is never returned. *)
Theorem coupling_keeps_rows (net_params : pytree) (fn : conditioner)
    (a b log_scale : ndarray) (flip : bool) :
  wf a -> cond_wf fn ->
  (nvp_forward net_params fn a flip = Some b \/
   nvp_inverse net_params fn a flip = Some (b, log_scale)) ->
  wf b /\ nrows b = nrows a.
Proof.
  intros Ha Hfn [H|H].
  - split; [now apply (nvp_forward_wf _ _ _ _ _ Ha Hfn H)|].
    apply nvp_forward_Some in H as (shift & ls & t1 & y2 & E & H1 & H2 & H3).
    destruct flip; unfold unchanged_half in H3.
    + pose proof (concatenate_Some _ _ _ H3) as (Hn3 & _ & _).
      rewrite (nrows_concatenate _ _ _ H3), Hn3. apply nrows_cols_from.
    + rewrite (nrows_concatenate _ _ _ H3). apply nrows_cols_to.
  - apply nvp_inverse_Some in H as (shift & t1 & x2 & E & H1 & H2 & H3).
    pose proof (wf_unchanged_half flip a Ha) as Hu.
    pose proof (wf_transformed_half flip a Ha) as Ht.
    destruct (Hfn _ _ _ _ Hu E) as [Hs Hl].
    destruct (broadcast2_Some _ _ _ _ Ht Hs H1) as (Wt1 & _).
    destruct (broadcast2_Some _ _ _ _ Wt1
                (wf_map_arr exp _ (wf_map_arr Ropp _ Hl)) H2) as (Wx2 & _).
    destruct flip; unfold unchanged_half in *.
    + split; [now apply (wf_concatenate _ _ _ Wx2 Hu H3)|].
      pose proof (concatenate_Some _ _ _ H3) as (Hn3 & _ & _).
      rewrite (nrows_concatenate _ _ _ H3), Hn3. apply nrows_cols_from.
    + split; [now apply (wf_concatenate _ _ _ Hu Wx2 H3)|].
      rewrite (nrows_concatenate _ _ _ H3). apply nrows_cols_to.
Qed.

Lemma coupling_keeps_rows_witness :
  wf {| width := 2; rows := [[1; 2 * exp 1 + 1]] |} /\
  nrows {| width := 2; rows := [[1; 2 * exp 1 + 1]] |} = nrows batch_1_2.
Proof.
  apply (coupling_keeps_rows (Leaf []) echo_conditioner batch_1_2
           {| width := 2; rows := [[1; 2 * exp 1 + 1]] |}
           {| width := 1; rows := [[1]] |} false).
  - exact batch_1_2_wf.
  - exact echo_conditioner_wf.
  - left. reflexivity.
Defined.

(** X3.  [nvp_inverse] passes the same half through as [nvp_forward] does:
    on a batch of even width [D], without flip the first [D/2] columns of
    the result are those of [y], and with flip the last [D/2] columns
    are. *)
Theorem nvp_inverse_unchanged_half (net_params : pytree)
    (fn : conditioner) (y x log_scale : ndarray) (flip : bool) :
  wf y -> cond_wf fn ->
  Nat.even (width y) = true ->
  nvp_inverse net_params fn y flip = Some (x, log_scale) ->
  if flip
  then last_cols (width y / 2) x = last_cols (width y / 2) y
  else cols_to (width y / 2) x = cols_to (width y / 2) y.
Proof.
  intros Hy Hfn Hev H.
  apply nvp_inverse_Some in H as (shift & t1 & x2 & E & H1 & H2 & H3).
  pose proof (wf_unchanged_half flip y Hy) as Hu.
  pose proof (wf_transformed_half flip y Hy) as Ht.
  destruct (Hfn _ _ _ _ Hu E) as [Hs Hl].
  destruct (broadcast2_Some _ _ _ _ Ht Hs H1) as (Wt1 & _).
  destruct (broadcast2_Some _ _ _ _ Wt1
              (wf_map_arr exp _ (wf_map_arr Ropp _ Hl)) H2) as (Wx2 & _).
  pose proof (even_half _ Hev) as Hhalf.
  destruct flip; unfold unchanged_half in *.
  - pose proof (concatenate_Some _ _ _ H3) as (_ & Hw3 & _).
    rewrite width_cols_from in Hw3.
    unfold last_cols.
    replace (width x - width y / 2)%nat with (width x2) by lia.
    rewrite Hhalf.
    now apply cols_from_concatenate with (2 := H3).
  - rewrite <- (width_cols_to_half y) at 1.
    now apply cols_to_concatenate with (2 := H3).
Qed.

Lemma nvp_inverse_unchanged_half_witness :
  last_cols (2 / 2) {| width := 2; rows := [[(1 - 2) * exp (- 2); 2]] |}
  = last_cols (2 / 2) batch_1_2.
Proof.
  apply (nvp_inverse_unchanged_half (Leaf []) echo_conditioner batch_1_2
           {| width := 2; rows := [[(1 - 2) * exp (- 2); 2]] |}
           {| width := 1; rows := [[2]] |} true).
  - exact batch_1_2_wf.
  - exact echo_conditioner_wf.
  - reflexivity.
  - reflexivity.
Defined.

(** ** Change of variables *)






(** ** Lists of unequal length *)

Lemma combine_firstn_min {A B : Type} (l : list A) (m : list B) :
  combine l m
  = combine (firstn (Nat.min (length l) (length m)) l)
            (firstn (Nat.min (length l) (length m)) m).
Proof.
  revert m; induction l as [|a l IH]; intros [|b m]; cbn; auto.
  f_equal. apply IH.
Qed.

(** X6.  Parameters and configurations are paired by [zip]: when the two
    lists differ in length, both the sampling chain and the chain
    log-density use the first [min(len(ps), len(configs))] layers and
    ignore the rest, without raising. *)
Theorem chains_ignore_unpaired_layers (ps : list pytree)
    (configs : list config) (base_log_prob_fn : log_prob_fn_t)
    (x : ndarray) :
  forward_chain ps configs x
  = forward_chain (firstn (Nat.min (length ps) (length configs)) ps)
      (firstn (Nat.min (length ps) (length configs)) configs) x /\
  log_prob_nvp_chain ps configs base_log_prob_fn x
  = log_prob_nvp_chain (firstn (Nat.min (length ps) (length configs)) ps)
      (firstn (Nat.min (length ps) (length configs)) configs)
      base_log_prob_fn x.
Proof.
  unfold forward_chain, log_prob_nvp_chain.
  now rewrite <- combine_firstn_min.
Qed.

(** ** The base density, again *)

Lemma Rsum_map_minus_const (f : R -> R) (c : R) (r : list R) :
  Rsum (map (fun v => f v - c) r) = Rsum (map f r) - INR (length r) * c.
Proof.
  induction r as [|v r IH].
  - simpl. ring.
  - cbn [map length]. rewrite S_INR. unfold Rsum in *. cbn [fold_right].
    rewrite IH. ring.
Qed.

Lemma Rsum_map_scal (f : R -> R) (c : R) (r : list R) :
  Rsum (map (fun v => c * f v) r) = c * Rsum (map f r).
Proof.
  induction r as [|v r IH].
  - simpl. ring.
  - unfold Rsum in *. cbn [map fold_right]. rewrite IH. ring.
Qed.

Lemma Rsum_squares_nonneg (r : list R) :
  0 <= Rsum (map (fun v => v * v) r).
Proof.
  induction r as [|v r IH].
  - simpl. lra.
  - unfold Rsum in *. cbn [map fold_right]. nra.
Qed.

Lemma ln_sqrt_2PI : ln (sqrt (2 * PI)) = ln (2 * PI) / 2.
Proof.
  assert (H : 0 < 2 * PI) by (pose proof PI_RGT_0; lra).
  pose proof sqrt_2PI_pos as Hs.
  assert (E : ln (2 * PI) = ln (sqrt (2 * PI)) + ln (sqrt (2 * PI))).
  { rewrite <- ln_mult by assumption. f_equal.
    symmetry. apply sqrt_sqrt. lra. }
  lra.
Qed.

Lemma log_prob_n01_rows (x : ndarray) :
  log_prob_n01 x
  = map (fun r => Rsum (map (fun v => - (v * v) / 2 - ln (sqrt (2 * PI))) r))
        (rows x).
Proof.
  unfold log_prob_n01, sum_last, np_neg, map_arr; cbn [rows].
  rewrite !map_map. apply map_ext. intros r. now rewrite !map_map.
Qed.

(** X7.  [log_prob_n01] is the log-density of the standard normal
    distribution of the dimension of the row: for a row [r] of [D] entries
    the value is [-|r|^2 / 2 - (D / 2) * log(2 pi)], and it is at most the
    value at the origin, [-(D / 2) * log(2 pi)]. *)
Theorem log_prob_n01_multivariate (x : ndarray) :
  Forall2
    (fun r v =>
       v = - Rsum (map (fun u => u * u) r) / 2
           - INR (length r) / 2 * ln (2 * PI) /\
       v <= - (INR (length r) / 2 * ln (2 * PI)))
    (rows x) (log_prob_n01 x).
Proof.
  rewrite log_prob_n01_rows.
  induction (rows x) as [|r rs IH]; cbn [map]; constructor; auto.
  assert (E : Rsum (map (fun v => - (v * v) / 2 - ln (sqrt (2 * PI))) r)
              = - Rsum (map (fun u => u * u) r) / 2
                - INR (length r) / 2 * ln (2 * PI)).
  { rewrite (Rsum_map_minus_const (fun v => - (v * v) / 2)).
    rewrite ln_sqrt_2PI.
    replace (map (fun v => - (v * v) / 2) r)
      with (map (fun v => (- / 2) * (v * v)) r)
      by (apply map_ext; intros v; field).
    rewrite (Rsum_map_scal (fun v => v * v)). field. }
  split; [exact E|].
  rewrite E. pose proof (Rsum_squares_nonneg r). lra.
Qed.

(** X8.  The base log-density is even: negating every entry of the batch
    does not change it. *)
Theorem log_prob_n01_even (x : ndarray) :
  log_prob_n01 (np_neg x) = log_prob_n01 x.
Proof.
  rewrite !log_prob_n01_rows. unfold np_neg, map_arr; cbn [rows].
  rewrite map_map. apply map_ext. intros r. f_equal.
  rewrite map_map. apply map_ext. intros v. f_equal. field.
Qed.

(** ** The conditioner of [init_nvp] *)


(** X9.  [shift_and_log_scale_fn] cuts the output [s] of the network in
    two: when the width of [s] is even, [shift] and [log_scale] are
    rectangular, each has the rows of [s] and half its width, and
    [shift] followed by [log_scale] is [s] again; when the width is odd the
    call raises. *)
Theorem shift_and_log_scale_fn_halves
    (net_apply : pytree -> ndarray -> option ndarray)
    (net_params : pytree) (x1 s : ndarray) :
  net_apply net_params x1 = Some s ->
  wf s ->
  if Nat.even (width s)
  then exists shift log_scale,
      shift_and_log_scale_fn net_apply net_params x1
      = Some (shift, log_scale) /\
      wf shift /\ wf log_scale /\
      shape shift = (nrows s, (width s / 2)%nat) /\
      shape log_scale = (nrows s, (width s / 2)%nat) /\
      concatenate shift log_scale = Some s
  else shift_and_log_scale_fn net_apply net_params x1 = None.
Proof.
  intros Hs Hwf. unfold shift_and_log_scale_fn, split2.
  rewrite Hs; cbn [bind].
  destruct (Nat.even (width s)) eqn:Hev; [|reflexivity].
  exists (cols_to (width s / 2) s), (cols_from (width s / 2) s).
  pose proof (half_le (width s)) as Hd.
  pose proof (even_half _ Hev) as Hh.
  repeat split.
  - now apply wf_cols_to.
  - now apply wf_cols_from.
  - unfold shape. now rewrite nrows_cols_to, width_cols_to_half.
  - unfold shape. now rewrite nrows_cols_from, width_cols_from, Hh.
  - now apply concatenate_halves.
Qed.

Lemma shift_and_log_scale_fn_halves_witness :
  if Nat.even (width zeros_1_2)
  then exists shift log_scale,
      shift_and_log_scale_fn zero_net_apply (Leaf []) batch_1_1
      = Some (shift, log_scale) /\
      wf shift /\ wf log_scale /\
      shape shift = (nrows zeros_1_2, (width zeros_1_2 / 2)%nat) /\
      shape log_scale = (nrows zeros_1_2, (width zeros_1_2 / 2)%nat) /\
      concatenate shift log_scale = Some zeros_1_2
  else shift_and_log_scale_fn zero_net_apply (Leaf []) batch_1_1 = None.
Proof.
  apply (shift_and_log_scale_fn_halves zero_net_apply (Leaf []) batch_1_1
           zeros_1_2).
  - reflexivity.
  - repeat constructor.
Defined.





(** ** The scatter plot of an image *)

Lemma py_range_pos_In (stop step : Z) (l : list Z) (i : Z) :
  (0 < step)%Z -> py_range 0 stop step = Some l ->
  In i l <-> (0 <= i < stop /\ i mod step = 0)%Z.
Proof.
  intros Hstep. unfold py_range.
  destruct (Z.eqb_spec step 0) as [->|_]; [lia|].
  destruct (Z.ltb_spec 0 step) as [_|]; [|lia].
  intros [= <-]. rewrite in_map_iff.
  set (q := ((stop - 0 + step - 1) / step)%Z).
  assert (Hq : (q * step <= stop - 0 + step - 1 < (q + 1) * step)%Z).
  { unfold q.
    pose proof (Z.div_mod (stop - 0 + step - 1) step ltac:(lia)) as Hdm.
    pose proof (Z.mod_pos_bound (stop - 0 + step - 1) step Hstep) as Hmb.
    nia. }
  split.
  - intros (k & Hk & Hin). apply in_seq in Hin.
    assert (Hkq : (Z.of_nat k < q)%Z) by lia.
    subst i. repeat split.
    + nia.
    + nia.
    + apply Z.mod_mul. lia.
  - intros ((Hi0 & Hi1) & Hmod).
    apply Z.mod_divide in Hmod; [|lia]. destruct Hmod as [k Hk].
    assert (Hk0 : (0 <= k)%Z) by nia.
    exists (Z.to_nat k). split; [lia|].
    apply in_seq. split; [lia|].
    assert (k < q)%Z by nia. lia.
Qed.



Lemma py_range_neg_up (stop step : Z) :
  (step < 0)%Z -> (0 <= stop)%Z -> py_range 0 stop step = Some [].
Proof.
  intros Hstep Hstop. unfold py_range.
  destruct (Z.eqb_spec step 0) as [->|_]; [lia|].
  destruct (Z.ltb_spec 0 step) as [|_]; [lia|].
  replace (Z.to_nat ((0 - stop - step - 1) / - step)) with 0%nat;
    [reflexivity|].
  assert ((0 - stop - step - 1) / - step <= 0)%Z; [|lia].
  apply Z.lt_succ_r. apply Z.div_lt_upper_bound; lia.
Qed.

Lemma py_index_in_range {A : Type} (l : list A) (i : Z) :
  (0 <= i < Z.of_nat (length l))%Z ->
  py_index l i = nth_error l (Z.to_nat i) /\
  exists a, nth_error l (Z.to_nat i) = Some a.
Proof.
  intros Hi. unfold py_index.
  destruct (Z.leb_spec 0 i); [|lia].
  destruct (Z.ltb_spec i (Z.of_nat (length l))); [|lia].
  split; [reflexivity|].
  destruct (nth_error l (Z.to_nat i)) as [a|] eqn:E; [now exists a|].
  apply nth_error_None in E. lia.
Qed.

(** Inside a rectangular image every pixel that the loops ask for exists. *)
Lemma img_at_in_range (img : image) (r j : Z) :
  img_wf img ->
  (0 <= r < Z.of_nat (img_height img))%Z ->
  (0 <= j < Z.of_nat (img_width img))%Z ->
  exists px, img_at img r j = Some px.
Proof.
  intros Hwf Hr Hj. unfold img_at.
  destruct (py_index_in_range (img_rows img) r Hr) as (E & row & Hrow).
  rewrite E, Hrow; cbn [bind].
  assert (Hlen : length row = img_width img).
  { apply nth_error_In in Hrow.
    unfold img_wf in Hwf. rewrite Forall_forall in Hwf. now apply Hwf. }
  rewrite <- Hlen in Hj.
  destruct (py_index_in_range row j Hj) as (E' & px & Hpx).
  exists px. now rewrite E'.
Qed.

(** The inner loop appends the hits of its row, in the order of [js]. *)
Lemma scatter_row_eq (img : image) (hit : pixel) (i : Z) (js : list Z) :
  (forall j, In j js ->
     exists px, img_at img (Z.of_nat (img_height img) - (i + 1)) j
                = Some px) ->
  forall X,
    scatter_row img hit i X js
    = Some (X ++ map (fun j => [j; i]) (filter (is_hit img hit i) js)).
Proof.
  unfold scatter_row.
  induction js as [|j js IH]; intros Hok X; cbn [fold_left filter map].
  - now rewrite app_nil_r.
  - destruct (Hok j (or_introl eq_refl)) as (px & Hpx).
    cbn [bind]. rewrite Hpx; cbn [bind].
    unfold is_hit at 1. rewrite Hpx.
    rewrite IH by (intros j' Hj'; apply Hok; now right).
    destruct (pixel_eqb px hit); cbn [map].
    + now rewrite <- app_assoc.
    + reflexivity.
Qed.

(** The outer loop, given the two ranges. *)
Lemma scatter_rows_eq (img : image) (hit : pixel) (stride : Z)
    (js : list Z) (rows_i : list Z) :
  py_range 0 (Z.of_nat (img_width img)) stride = Some js ->
  (forall i j, In i rows_i -> In j js ->
     exists px, img_at img (Z.of_nat (img_height img) - (i + 1)) j
                = Some px) ->
  forall X,
    fold_left
      (fun acc i =>
         X <- acc ;;
         js <- py_range 0 (Z.of_nat (img_width img)) stride ;;
         scatter_row img hit i X js)
      rows_i (Some X)
    = Some (X ++ flat_map
                   (fun i => map (fun j => [j; i])
                               (filter (is_hit img hit i) js))
                   rows_i).
Proof.
  intros Hjs.
  induction rows_i as [|i rows_i IH]; intros Hok X;
    cbn [fold_left flat_map].
  - now rewrite app_nil_r.
  - assert (Hstep :
      (X0 <- Some X ;;
       js0 <- py_range 0 (Z.of_nat (img_width img)) stride ;;
       scatter_row img hit i X0 js0)
      = Some (X ++ map (fun j => [j; i]) (filter (is_hit img hit i) js))).
    { cbn [bind]. rewrite Hjs; cbn [bind].
      apply scatter_row_eq. intros j Hj. apply Hok; [now left|exact Hj]. }
    rewrite Hstep.
    rewrite IH by (intros i' j Hi' Hj; apply Hok; [now right|exact Hj]).
    now rewrite <- app_assoc.
Qed.

(** With a positive stride nothing raises, and the result is the list of
    the hits, row by row. *)
Lemma convert_img_to_scatter_eq (img : image) (stride : Z) (hit : pixel) :
  img_wf img -> (0 < stride)%Z ->
  exists rows_i js,
    py_range 0 (Z.of_nat (img_height img) - 50) stride = Some rows_i /\
    py_range 0 (Z.of_nat (img_width img)) stride = Some js /\
    convert_img_to_scatter img stride hit
    = Some (flat_map
              (fun i => map (fun j => [j; i])
                          (filter (is_hit img hit i) js))
              rows_i).
Proof.
  intros Hwf Hstride.
  destruct (py_range 0 (Z.of_nat (img_height img) - 50) stride)
    as [rows_i|] eqn:Ei.
  2:{ unfold py_range in Ei.
      destruct (Z.eqb_spec stride 0); [lia|discriminate]. }
  destruct (py_range 0 (Z.of_nat (img_width img)) stride) as [js|] eqn:Ej.
  2:{ unfold py_range in Ej.
      destruct (Z.eqb_spec stride 0); [lia|discriminate]. }
  exists rows_i, js. repeat split.
  unfold convert_img_to_scatter. rewrite Ei. unfold bind at 1.
  rewrite (scatter_rows_eq img hit stride js rows_i Ej); [reflexivity|].
  intros i j Hi Hj.
  apply (py_range_pos_In _ _ _ _ Hstride Ei) in Hi.
  apply (py_range_pos_In _ _ _ _ Hstride Ej) in Hj.
  apply img_at_in_range; auto; lia.
Qed.

Lemma is_hit_true (img : image) (hit : pixel) (i j : Z) :
  is_hit img hit i j = true <->
  img_at img (Z.of_nat (img_height img) - (i + 1)) j = Some hit.
Proof.
  unfold is_hit, pixel_eqb.
  destruct (img_at img _ j) as [px|]; [|split; discriminate].
  destruct (list_eq_dec Z.eq_dec px hit) as [->|Hne]; split; auto;
    try discriminate.
  intros [= ->]. now elim Hne.
Qed.

(** X11.  On a rectangular image and with a positive stride,
    [convert_img_to_scatter] raises nothing, and its points are exactly the
    pairs [[j, i]] with [i] a multiple of the stride below [height - 50],
    [j] a multiple of the stride below the width, and the pixel in row
    [height - (i + 1)], column [j] equal to [hit]. *)
Theorem convert_img_to_scatter_points (img : image) (stride : Z)
    (hit : pixel) :
  img_wf img -> (0 < stride)%Z ->
  exists X,
    convert_img_to_scatter img stride hit = Some X /\
    forall pt,
      In pt X <->
      exists i j,
        pt = [j; i] /\
        (0 <= i < Z.of_nat (img_height img) - 50)%Z /\
        (i mod stride = 0)%Z /\
        (0 <= j < Z.of_nat (img_width img))%Z /\
        (j mod stride = 0)%Z /\
        img_at img (Z.of_nat (img_height img) - (i + 1)) j = Some hit.
Proof.
  intros Hwf Hstride.
  destruct (convert_img_to_scatter_eq img stride hit Hwf Hstride)
    as (rows_i & js & Ei & Ej & E).
  eexists; split; [exact E|].
  intros pt. rewrite in_flat_map. split.
  - intros (i & Hi & Hpt). apply in_map_iff in Hpt as (j & <- & Hj).
    apply filter_In in Hj as [Hj Hhit].
    apply (py_range_pos_In _ _ _ _ Hstride Ei) in Hi.
    apply (py_range_pos_In _ _ _ _ Hstride Ej) in Hj.
    apply is_hit_true in Hhit.
    exists i, j. tauto.
  - intros (i & j & -> & Hi & Hmi & Hj & Hmj & Hhit).
    exists i. split.
    + apply (py_range_pos_In _ _ _ _ Hstride Ei). tauto.
    + apply in_map_iff. exists j. split; [reflexivity|].
      apply filter_In. split.
      * apply (py_range_pos_In _ _ _ _ Hstride Ej). tauto.
      * now apply is_hit_true.
Qed.

Lemma corner_image_wf : img_wf corner_image.
Proof.
  unfold img_wf, corner_image; cbn [img_rows img_width].
  apply Forall_app. split.
  - apply Forall_forall. intros r Hr. apply repeat_spec in Hr. now subst.
  - repeat constructor.
Qed.

Lemma convert_img_to_scatter_points_witness :
  exists X,
    convert_img_to_scatter corner_image 2 blue = Some X /\
    forall pt,
      In pt X <->
      exists i j,
        pt = [j; i] /\
        (0 <= i < Z.of_nat (img_height corner_image) - 50)%Z /\
        (i mod 2 = 0)%Z /\
        (0 <= j < Z.of_nat (img_width corner_image))%Z /\
        (j mod 2 = 0)%Z /\
        img_at corner_image
          (Z.of_nat (img_height corner_image) - (i + 1)) j = Some blue.
Proof.
  apply (convert_img_to_scatter_points corner_image 2 blue).
  - exact corner_image_wf.
  - reflexivity.
Defined.



Lemma scatter_no_columns (img : image) (hit : pixel) (stride : Z)
    (rows_i : list Z) :
  py_range 0 (Z.of_nat (img_width img)) stride = Some [] ->
  fold_left
    (fun acc i =>
       X <- acc ;;
       js <- py_range 0 (Z.of_nat (img_width img)) stride ;;
       scatter_row img hit i X js)
    rows_i (Some []) = Some [].
Proof.
  intros Hjs. induction rows_i as [|i rows_i IH]; cbn [fold_left].
  - reflexivity.
  - assert (Hstep :
      (X0 <- Some [] ;;
       js0 <- py_range 0 (Z.of_nat (img_width img)) stride ;;
       scatter_row img hit i X0 js0) = Some []).
    { cbn [bind]. now rewrite Hjs. }
    rewrite Hstep. exact IH.
Qed.

Lemma scatter_nonpositive_stride (img : image)
    (stride : Z) (hit : pixel) :
  (stride <= 0)%Z ->
  convert_img_to_scatter img stride hit
  = if (stride =? 0)%Z then None else Some [].
Proof.
  intros Hs. unfold convert_img_to_scatter.
  destruct (Z.eqb_spec stride 0) as [->|Hne].
  - reflexivity.
  - destruct (py_range 0 (Z.of_nat (img_height img) - 50) stride)
      as [rows_i|] eqn:Ei.
    + unfold bind at 1. apply scatter_no_columns.
      apply py_range_neg_up; lia.
    + unfold py_range in Ei.
      destruct (Z.eqb_spec stride 0); [contradiction|discriminate].
Qed.

(** X13.  A stride that is not positive: with the stride 0
    [convert_img_to_scatter] raises, as [range] does, and with a negative
    stride it returns no point at all, whatever the image. *)
Theorem convert_img_to_scatter_nonpositive_stride (img : image)
    (stride : Z) (hit : pixel) :
  (stride <= 0)%Z ->
  convert_img_to_scatter img stride hit
  = if (stride =? 0)%Z then None else Some [].
Proof.
  apply scatter_nonpositive_stride.
Qed.

Lemma convert_img_to_scatter_nonpositive_stride_witness :
  convert_img_to_scatter corner_image (-2) blue
  = if (-2 =? 0)%Z then None else Some [].
Proof.
  apply (convert_img_to_scatter_nonpositive_stride corner_image (-2) blue).
  discriminate.
Defined.

Lemma flat_map_ext_on {A B : Type} (f g : A -> list B) (l : list A) :
  (forall a, In a l -> f a = g a) -> flat_map f l = flat_map g l.
Proof.
  induction l as [|a l IH]; intros H; cbn [flat_map]; auto.
  rewrite H by now left. rewrite IH; auto. intros b Hb. apply H. now right.
Qed.

Lemma img_at_below_top (img img' : image) (r j : Z) :
  img_height img = img_height img' ->
  skipn 50 (img_rows img) = skipn 50 (img_rows img') ->
  (50 <= r < Z.of_nat (img_height img))%Z ->
  img_at img r j = img_at img' r j.
Proof.
  intros Hh Hrows Hr. unfold img_at.
  destruct (py_index_in_range (img_rows img) r ltac:(unfold img_height in Hr; lia))
    as (E & _).
  destruct (py_index_in_range (img_rows img') r
              ltac:(unfold img_height in Hr, Hh; lia)) as (E' & _).
  rewrite E, E'.
  replace (Z.to_nat r) with (50 + (Z.to_nat r - 50))%nat by lia.
  now rewrite <- !nth_error_skipn, Hrows.
Qed.

(** X14.  The first 50 rows of the image are never read: two rectangular
    images of one size that agree from row 50 on give the same points, and
    raise alike. *)
Theorem convert_img_to_scatter_ignores_top_rows (img img' : image)
    (stride : Z) (hit : pixel) :
  img_wf img -> img_wf img' ->
  img_width img = img_width img' ->
  img_height img = img_height img' ->
  skipn 50 (img_rows img) = skipn 50 (img_rows img') ->
  convert_img_to_scatter img stride hit
  = convert_img_to_scatter img' stride hit.
Proof.
  intros Hwf Hwf' Hw Hh Hrows.
  destruct (Z.lt_ge_cases 0 stride) as [Hpos|Hneg].
  - destruct (convert_img_to_scatter_eq img stride hit Hwf Hpos)
      as (rows_i & js & Ei & Ej & E).
    destruct (convert_img_to_scatter_eq img' stride hit Hwf' Hpos)
      as (rows_i' & js' & Ei' & Ej' & E').
    rewrite <- Hh, Ei in Ei'. injection Ei' as <-.
    rewrite <- Hw, Ej in Ej'. injection Ej' as <-.
    rewrite E, E'. f_equal.
    apply flat_map_ext_on. intros i Hi.
    apply (py_range_pos_In _ _ _ _ Hpos Ei) in Hi.
    f_equal. apply filter_ext. intros j.
    unfold is_hit. rewrite <- Hh.
    rewrite (img_at_below_top img img'); auto. lia.
  - now rewrite !scatter_nonpositive_stride by assumption.
Qed.

Lemma corner_image_blue_sky_wf : img_wf corner_image_blue_sky.
Proof.
  unfold img_wf, corner_image_blue_sky; cbn [img_rows img_width].
  apply Forall_app. split.
  - apply Forall_forall. intros r Hr. apply repeat_spec in Hr. now subst.
  - repeat constructor.
Qed.

Lemma convert_img_to_scatter_ignores_top_rows_witness :
  convert_img_to_scatter corner_image 1 blue
  = convert_img_to_scatter corner_image_blue_sky 1 blue.
Proof.
  apply (convert_img_to_scatter_ignores_top_rows corner_image
           corner_image_blue_sky 1 blue).
  - exact corner_image_wf.
  - exact corner_image_blue_sky_wf.
  - reflexivity.
  - reflexivity.
  - reflexivity.
Defined.

(** ** The animation *)

Lemma values_step_None (layers : list (pytree * config)) :
  fold_left Animation.values_step layers None = None.
Proof.
  induction layers as [|[p [fn flip]] rest IH]; cbn [fold_left]; auto.
Qed.

(** The loop that collects the frames keeps the batches of the forward
    pass: the list grows by one batch per layer and ends with the current
    batch. *)
Lemma values_fold (layers : list (pytree * config)) :
  forall (x0 : ndarray) (pre0 : list ndarray) (y : ndarray)
         (vs : list ndarray),
    fold_left Animation.values_step layers (Some (x0, pre0 ++ [x0]))
    = Some (y, vs) ->
    fold_left forward_step layers (Some x0) = Some y /\
    exists mid,
      vs = pre0 ++ [x0] ++ mid /\
      length mid = length layers /\
      exists pre, vs = pre ++ [y].
Proof.
  induction layers as [|[p [fn flip]] rest IH]; intros x0 pre0 y vs H.
  - cbn [fold_left] in H. injection H as <- <-.
    split; [reflexivity|]. exists [].
    split; [reflexivity|]. split; [reflexivity|]. now exists pre0.
  - cbn [fold_left] in H. unfold Animation.values_step at 2 in H.
    cbn [bind] in H.
    destruct (nvp_forward p fn x0 flip) as [x1|] eqn:E1; cbn [bind] in H.
    + rewrite <- app_assoc in H.
      rewrite app_assoc in H.
      destruct (IH x1 (pre0 ++ [x0]) y vs H) as (Hf & mid & Hvs & Hlen & Hlast).
      split.
      * cbn [fold_left]. unfold forward_step at 2. cbn [bind].
        now rewrite E1.
      * exists (x1 :: mid).
        split; [rewrite Hvs; now rewrite <- !app_assoc|].
        split; [cbn [length]; now rewrite Hlen|exact Hlast].
    + rewrite values_step_None in H. discriminate.
Qed.

Lemma py_index_last {A : Type} (pre : list A) (y : A) :
  py_index (pre ++ [y]) (-1) = Some y.
Proof.
  unfold py_index. rewrite length_app; cbn [length].
  destruct (Z.leb_spec 0 (-1)); [lia|]. cbn [andb].
  destruct (Z.leb_spec (- Z.of_nat (length pre + 1)) (-1)); [|lia].
  destruct (Z.ltb_spec (-1) 0); [|lia]. cbn [andb].
  replace (Z.to_nat (-1 + Z.of_nat (length pre + 1))) with (length pre) by lia.
  rewrite nth_error_app2 by lia. now rewrite Nat.sub_diag.
Qed.

(** The frames: five copies of the base sample, the batches of the forward
    pass, five copies of the final batch. *)
Lemma values_of_eq (ps : list pytree) (cs : list config) (x : ndarray)
    (values : list ndarray) :
  Animation.values_of ps cs x = Some values ->
  exists y mid,
    forward_chain ps cs x = Some y /\
    length mid = length (combine ps cs) /\
    (exists pre, x :: mid = pre ++ [y]) /\
    values = repeat x 5 ++ (x :: mid) ++ repeat y 5.
Proof.
  unfold Animation.values_of. intros H.
  inv_bind H. destruct a as [y vs].
  destruct (values_fold _ x [] y vs E) as (Hf & mid & Hvs & Hlen & pre & Hlast).
  cbn [app] in Hvs. subst vs.
  change (py_index (x :: mid) 0) with (Some x) in H. cbn [bind] in H.
  rewrite Hlast in H at 1. rewrite py_index_last in H. cbn [bind] in H.
  injection H as <-.
  exists y, mid. repeat split; auto. now exists pre.
Qed.



Lemma length_frames (x y : ndarray) (mid : list ndarray) :
  length (repeat x 5 ++ (x :: mid) ++ repeat y 5) = (length mid + 11)%nat.
Proof.
  rewrite !length_app, !repeat_length. cbn [length]. lia.
Qed.

(** X15.  No frame of the animation indexes outside [values]: with as many
    parameter sets as configurations, for every frame number [i] below
    [frames] both [values[i // n]] and [values[i // n + 1]] exist. *)
Theorem animate_frames_in_range (ps : list pytree) (cs : list config)
    (x : ndarray) (values : list ndarray) (i : Z) :
  length ps = length cs ->
  Animation.values_of ps cs x = Some values ->
  (0 <= i < Animation.frames cs)%Z ->
  Z.of_nat (length values) = (Z.of_nat (length cs) + 11)%Z /\
  exists a b,
    py_index values (i / Animation.n) = Some a /\
    py_index values (i / Animation.n + 1) = Some b.
Proof.
  intros Hlen Hv Hi.
  destruct (values_of_eq _ _ _ _ Hv) as (y & mid & _ & Hmid & _ & ->).
  rewrite length_combine, Hlen, Nat.min_id in Hmid.
  rewrite length_frames, Hmid.
  split; [lia|].
  unfold Animation.frames, Animation.n in *.
  assert (Hl : (0 <= i / 12 < Z.of_nat (length cs) + 10)%Z).
  { split; [apply Z.div_pos; lia|].
    apply Z.div_lt_upper_bound; lia. }
  set (frames := repeat x 5 ++ (x :: mid) ++ repeat y 5).
  assert (Hframes : length frames = (length cs + 11)%nat)
    by (unfold frames; rewrite length_frames; lia).
  destruct (py_index_in_range frames (i / 12)) as (Ea & a & Ha); [lia|].
  destruct (py_index_in_range frames (i / 12 + 1)) as (Eb & b & Hb); [lia|].
  exists a, b. split; congruence.
Qed.

Lemma animate_frames_in_range_witness :
  Z.of_nat (length (repeat batch_1_2 5 ++ [batch_1_2; sample_1_2]
                      ++ repeat sample_1_2 5))
  = (Z.of_nat (length [(echo_conditioner, false)]) + 11)%Z /\
  exists a b,
    py_index (repeat batch_1_2 5 ++ [batch_1_2; sample_1_2]
                ++ repeat sample_1_2 5) (131 / Animation.n) = Some a /\
    py_index (repeat batch_1_2 5 ++ [batch_1_2; sample_1_2]
                ++ repeat sample_1_2 5) (131 / Animation.n + 1) = Some b.
Proof.
  apply (animate_frames_in_range [Leaf []] [(echo_conditioner, false)]
           batch_1_2
           (repeat batch_1_2 5 ++ [batch_1_2; sample_1_2]
              ++ repeat sample_1_2 5) 131).
  - reflexivity.
  - reflexivity.
  - split; [discriminate | reflexivity].
Defined.


(** The blend of two rectangular batches of one shape. *)
Lemma np_add_scaled (c d : R) (a b : ndarray) :
  wf a -> wf b -> shape b = shape a ->
  np_add (Animation.scale c a) (Animation.scale d b)
  = Some (zip_arr (fun u v => c * u + d * v) a b).
Proof.
  intros Ha Hb Hs. apply shape_eq in Hs as [Hn Hw].
  unfold np_add, Animation.scale.
  rewrite broadcast2_fits.
  - rewrite broadcast_to_id.
    + f_equal. apply ndarray_eq; cbn [width zip_arr map_arr rows]; auto.
      rewrite zip_with_map_l, zip_with_map_r.
      apply zip_with_ext. intros r s.
      rewrite zip_with_map_l, zip_with_map_r. reflexivity.
    + now apply wf_map_arr.
    + now rewrite !nrows_map_arr.
    + cbn [width map_arr]. exact Hw.
  - now apply wf_map_arr.
  - left. now rewrite !nrows_map_arr.
  - left. cbn [width map_arr]. exact Hw.
Qed.


Lemma zip_with_left {A B : Type} (f : A -> B -> A) (l : list A)
    (m : list B) :
  (forall u v, f u v = u) -> length m = length l -> zip_with f l m = l.
Proof.
  intros Hf. revert m; induction l as [|a l IH]; intros [|b m] Hlen;
    cbn in *; try discriminate; auto.
  rewrite Hf, IH; auto.
Qed.

Lemma zip_arr_left (f : R -> R -> R) (a b : ndarray) :
  (forall u v, f u v = u) ->
  wf a -> wf b -> shape b = shape a ->
  zip_arr f a b = a.
Proof.
  intros Hf Ha Hb Hs. apply shape_eq in Hs as [Hn Hw].
  apply ndarray_eq; cbn [width zip_arr rows]; auto.
  unfold wf, nrows in *. rewrite Hw in Hb.
  revert Ha Hb Hn. generalize (width a) (rows a) (rows b).
  intros w ra. induction ra as [|r ra IH]; intros [|s rb] Ha Hb Hn;
    cbn in *; try discriminate; auto.
  inversion Ha; inversion Hb; subst.
  rewrite zip_with_left, IH; auto; lia.
Qed.




(** X17.  At the first frame of every step the animation shows a batch of
    [values] itself: when [values[k]] and [values[k + 1]] are rectangular
    and of one shape, [animate(k * n)] is [values[k]]. *)
Theorem animate_at_step_start (values : list ndarray) (k : Z)
    (a b : ndarray) :
  py_index values k = Some a ->
  py_index values (k + 1) = Some b ->
  wf a -> wf b -> shape b = shape a ->
  Animation.animate values (k * Animation.n) = Some a.
Proof.
  intros Ha Hb Wa Wb Hs.
  unfold Animation.animate, Animation.n. cbv zeta.
  rewrite Z.div_mul by discriminate. rewrite Z.mod_mul by discriminate.
  rewrite Ha, Hb. cbn [bind].
  rewrite np_add_scaled by auto. f_equal.
  apply zip_arr_left; auto. intros u v. unfold Rdiv. ring.
Qed.

Lemma animate_at_step_start_witness :
  Animation.animate [batch_1_2; sample_1_2] (0 * Animation.n)
  = Some batch_1_2.
Proof.
  apply (animate_at_step_start [batch_1_2; sample_1_2] 0 batch_1_2
           sample_1_2).
  - reflexivity.
  - reflexivity.
  - exact batch_1_2_wf.
  - repeat constructor.
  - reflexivity.
Defined.

(** ** Gradient clipping in a training step *)

Lemma tree_map_id (f : list R -> list R) (t : pytree) :
  (forall a, f a = a) -> tree_map f t = t.
Proof.
  intros Hf. induction t as [a|children IH] using pytree_induction.
  - cbn [tree_map]. now rewrite Hf.
  - cbn [tree_map]. f_equal.
    induction IH as [|c children Hc _ IHch]; cbn [map]; auto.
    now rewrite Hc, IHch.
Qed.

Lemma sum_squares_scaled (c : R) (t : pytree) :
  sum_squares (tree_map (map (fun v => v * c)) t) = c * c * sum_squares t.
Proof.
  induction t as [a|children IH] using pytree_induction.
  - cbn [tree_map sum_squares]. rewrite map_map.
    rewrite <- (Rsum_map_scal (fun v => v * v)). f_equal.
    apply map_ext. intros v. ring.
  - cbn [tree_map sum_squares]. rewrite map_map.
    induction IH as [|ch children Hc _ IHch]; cbn [map].
    + unfold Rsum; cbn [fold_right]. ring.
    + unfold Rsum in *; cbn [fold_right]. rewrite Hc, IHch. ring.
Qed.

Lemma sum_squares_nonneg (t : pytree) : 0 <= sum_squares t.
Proof.
  induction t as [a|children IH] using pytree_induction.
  - cbn [sum_squares]. apply Rsum_squares_nonneg.
  - cbn [sum_squares].
    induction IH as [|ch children Hc _ IHch]; cbn [map].
    + unfold Rsum; cbn [fold_right]. lra.
    + unfold Rsum in *; cbn [fold_right]. lra.
Qed.

(** The norm after clipping, for a positive bound. *)
Lemma l2_norm_clip_grads (g : pytree) (max_norm : R) :
  0 < max_norm ->
  l2_norm (clip_grads g max_norm) = Rmin (l2_norm g) max_norm.
Proof.
  intros Hmax. unfold clip_grads.
  destruct (Rlt_dec (l2_norm g) max_norm) as [Hlt|Hge].
  - rewrite tree_map_id by reflexivity.
    rewrite Rmin_left; lra.
  - assert (Hn : 0 < l2_norm g) by lra.
    rewrite Rmin_right by lra.
    rewrite l2_norm_sqrt, sum_squares_scaled.
    rewrite sqrt_mult.
    + rewrite sqrt_square.
      * rewrite <- l2_norm_sqrt. field. lra.
      * apply Rlt_le. apply Rdiv_lt_0_compat; lra.
    + nra.
    + apply sum_squares_nonneg.
Qed.

(** X18.  One training step: when [step] returns, the loss it reports is
    the loss at the parameters before the update, and the gradient it
    hands to the optimizer is the gradient of that loss clipped to the L2
    norm [grad_clip = 1]: its norm is the smaller of 1 and the norm of the
    raw gradient. *)
Theorem step_clips_gradient (PRNGKey : Type) (rng : PRNGKey)
    (net_init : PRNGKey -> Z * Z -> (Z * Z) * pytree)
    (net_apply : pytree -> ndarray -> option ndarray)
    (opt_state_t : Type) (get_params : opt_state_t -> list pytree)
    (opt_update : Z -> pytree -> opt_state_t -> opt_state_t)
    (grad_loss : list pytree -> ndarray -> option pytree)
    (i : Z) (opt_state opt_state' : opt_state_t) (batch : ndarray) (l : R) :
  step rng net_init net_apply get_params opt_update grad_loss
    i opt_state batch = Some (opt_state', l) ->
  loss rng net_init net_apply (get_params opt_state) batch = Some l /\
  exists g,
    grad_loss (get_params opt_state) batch = Some g /\
    opt_state' = opt_update i (clip_grads g 1) opt_state /\
    l2_norm (clip_grads g 1) = Rmin (l2_norm g) 1.
Proof.
  unfold step. intros H.
  inv_bind H. rename a into g. inv_bind H. injection H as <- <-.
  split; [exact E0|].
  exists g. split; [exact E|]. split; [reflexivity|].
  apply l2_norm_clip_grads. lra.
Qed.

Lemma step_clips_gradient_witness :
  loss tt zero_net_init zero_net_apply (id_get_params [Leaf [2]]) batch_1_0
  = Some example_loss_value /\
  exists g,
    const_grad_loss (id_get_params [Leaf [2]]) batch_1_0 = Some g /\
    [Leaf [2]] = null_opt_update 0 (clip_grads g 1) [Leaf [2]] /\
    l2_norm (clip_grads g 1) = Rmin (l2_norm g) 1.
Proof.
  apply (step_clips_gradient unit tt zero_net_init zero_net_apply
           (list pytree) id_get_params null_opt_update const_grad_loss
           0 [Leaf [2]] [Leaf [2]] batch_1_0 example_loss_value).
  reflexivity.
Defined.

(** ** Injectivity *)


